(** * pybnfuzzer: a shallow embedding of [pybnfuzzer.py]

    The development follows the pipeline of the program:
    tokenizer ([lex_bnf]), definition extractor
    ([parse_all_symbol_definitions]), rule builder ([parse_bnf_tokens]),
    generator ([gen]) and introspector ([repr]).

    Python objects with identity (the [parsed_rules] dictionary shared by
    every [ReferenceRule], and the mutable [__had_repr_call] flag of each
    [ReferenceRule]) live in an explicit heap.  Exceptions are values of
    [PyError]; the process-wide [random] module is a stream of raw draws. *)

From Stdlib Require Import Ascii DecimalString.
From stdpp Require Import base option list strings gmap.

Set Warnings "-register-all".

(** ** Exceptions and results *)

Inductive PyError : Type :=
| SystemExit (printed : string) (exit_code : nat)
| IndexError
| UnboundLocalError
| TypeError
| AttributeError
| RecursionError
| ReError
| ValueError.

Inductive result (A : Type) : Type :=
| Ok (a : A)
| Err (e : PyError).
Arguments Ok {A} a.
Arguments Err {A} e.

Global Instance result_bind : MBind result := λ A B k m,
  match m with
  | Ok a => k a
  | Err e => Err e
  end.

Global Instance result_ret : MRet result := λ A a, Ok a.


(** A fatal error that went through [report_error_and_exit]. *)
Definition reported {A} (m : result A) : Prop :=
  ∃ printed code, m = Err (SystemExit printed code).

(** ** Strings *)

Definition dquote : ascii := "034".
Definition squote : ascii := "039".
Definition backslash : ascii := "092".
Definition newline : ascii := "010".
Definition tab : ascii := "009".
Definition esc : ascii := "027".

Definition str (c : ascii) : string := String c "".
Definition quoted (s : string) : string := str dquote +:+ s +:+ str dquote.
Definition decimal (n : nat) : string := NilZero.string_of_uint (Nat.to_uint n).

Fixpoint char_in (c : ascii) (s : string) : bool :=
  match s with
  | EmptyString => false
  | String d s' => if Ascii.eqb c d then true else char_in c s'
  end.

Definition ascii_letters : string :=
  "abcdefghijklmnopqrstuvwxyzABCDEFGHIJKLMNOPQRSTUVWXYZ".
Definition digits : string := "0123456789".
Definition whitespace : string :=
  String " " (String tab (String newline (String "013" (String "011" (String "012" ""))))).

Definition ALLOWED_SYMBOL_NAME_CHARACTERS : string :=
  ascii_letters +:+ digits +:+ "-_".
Definition START_LIMIT : nat := 5.
Definition PLUS_LIMIT : nat := 5.
Definition REGEXP_REPEAT_LIMIT : nat := 5.

(** ** Error reporting *)

Definition bold_red (s : string) : string :=
  str esc +:+ "[1;31m" +:+ s +:+ str esc +:+ "[0m".

Definition report_error_and_exit {A} (error_text : string) : result A :=
  Err (SystemExit (bold_red "error" +:+ ": " +:+ error_text) 1).

(** ** Tokens *)

Inductive TokenKind : Type :=
| DEFINE | SYMBOL | LITERAL | SEMICOLON | ALTER | REGEX
| OPAREN | CPAREN | STAR | PLUS | OPTION.

Global Instance TokenKind_eq_dec : EqDecision TokenKind.
Proof. solve_decision. Defined.

Record Token : Type := mkToken { kind : TokenKind; value : option string }.

Global Instance Token_eq_dec : EqDecision Token.
Proof. solve_decision. Defined.

(** ** Tokenizer

    [lex_bnf] walks the text with an index; here every loop of the source
    is a function on the text that is left.  [symbol_name] is the local
    variable of that name: [None] while it is unbound. *)

Definition msg_bad_symbol_char (c : ascii) : string :=
  "only ASCII uppercase and lowercase letters, digits, and "
  +:+ quoted "-" +:+ " and " +:+ quoted "_" +:+ " "
  +:+ "characters are allowed in symbol names; got: " +:+ quoted (str c).
Definition msg_unterminated_rule_name (symbol_name : string) : string :=
  "unterminated rule name near " +:+ quoted symbol_name.
Definition msg_bad_escape (c : ascii) : string :=
  "unrecognized escape sequence: " +:+ str backslash +:+ quoted (str c).
Definition msg_unterminated_literal (near : string) : string :=
  "unterminated literal value near " +:+ quoted near.
Definition msg_unrecognized (c : ascii) : string :=
  "unrecognized symbol: " +:+ quoted (str c)
  +:+ " (code: " +:+ decimal (nat_of_ascii c) +:+ ")".

Definition push (tokens : list Token) (k : TokenKind) (v : option string) : list Token :=
  tokens ++ [mkToken k v].

Fixpoint lex_loop (bnf : string) (symbol_name : option string)
    (tokens : list Token) {struct bnf} : result (list Token) :=
  match bnf with
  | EmptyString => Ok tokens
  | String c rest =>
    if Ascii.eqb c "<" then lex_symbol rest "" tokens
    else if Ascii.eqb c ":" then
      match rest with
      | String ":" (String "=" rest') =>
          lex_loop rest' symbol_name (push tokens DEFINE None)
      | _ => report_error_and_exit "broken rule definition"
      end
    else if Ascii.eqb c dquote then lex_literal dquote rest "" symbol_name tokens
    else if Ascii.eqb c squote then lex_literal squote rest "" symbol_name tokens
    else if Ascii.eqb c "/" then lex_regex rest "" symbol_name tokens
    else if Ascii.eqb c ";" then lex_loop rest symbol_name (push tokens SEMICOLON None)
    else if Ascii.eqb c "|" then lex_loop rest symbol_name (push tokens ALTER None)
    else if Ascii.eqb c "(" then lex_loop rest symbol_name (push tokens OPAREN None)
    else if Ascii.eqb c ")" then lex_loop rest symbol_name (push tokens CPAREN None)
    else if Ascii.eqb c "*" then lex_loop rest symbol_name (push tokens STAR None)
    else if Ascii.eqb c "+" then lex_loop rest symbol_name (push tokens PLUS None)
    else if Ascii.eqb c "?" then lex_loop rest symbol_name (push tokens OPTION None)
    else if Ascii.eqb c "#" then lex_comment rest symbol_name tokens
    else if char_in c whitespace then lex_loop rest symbol_name tokens
    else report_error_and_exit (msg_unrecognized c)
  end

(** the loop after [<]: [symbol_name] was reset to the empty string *)
with lex_symbol (bnf : string) (symbol_name : string)
    (tokens : list Token) {struct bnf} : result (list Token) :=
  match bnf with
  | EmptyString => report_error_and_exit (msg_unterminated_rule_name symbol_name)
  | String c rest =>
    if Ascii.eqb c ">" then
      lex_loop rest (Some symbol_name) (push tokens SYMBOL (Some symbol_name))
    else if negb (char_in c ALLOWED_SYMBOL_NAME_CHARACTERS) then
      report_error_and_exit (msg_bad_symbol_char c)
    else lex_symbol rest (symbol_name +:+ str c) tokens
  end

(** the loop after an opening quote [q]; the source has one copy of it for
    the double quote and one for the single quote *)
with lex_literal (q : ascii) (bnf : string) (value : string)
    (symbol_name : option string) (tokens : list Token) {struct bnf}
    : result (list Token) :=
  match bnf with
  | EmptyString => report_error_and_exit (msg_unterminated_literal value)
  | String c rest =>
    if Ascii.eqb c q then
      lex_loop rest symbol_name (push tokens LITERAL (Some value))
    else if Ascii.eqb c backslash then
      match rest with
      | EmptyString => Err IndexError (* [bnf[idx]] past the end *)
      | String e rest' =>
        if Ascii.eqb e "n" then
          lex_literal q rest' (value +:+ str newline) symbol_name tokens
        else if Ascii.eqb e "t" then
          lex_literal q rest' (value +:+ str tab) symbol_name tokens
        else if Ascii.eqb e backslash then
          lex_literal q rest' (value +:+ str backslash) symbol_name tokens
        else report_error_and_exit (msg_bad_escape e)
      end
    else lex_literal q rest (value +:+ str c) symbol_name tokens
  end

(** the loop after [/]; at the end of the text the message reads the
    variable [symbol_name], which only the [<] branch binds *)
with lex_regex (bnf : string) (regex : string)
    (symbol_name : option string) (tokens : list Token) {struct bnf}
    : result (list Token) :=
  match bnf with
  | EmptyString =>
    match symbol_name with
    | None => Err UnboundLocalError
    | Some name => report_error_and_exit (msg_unterminated_literal name)
    end
  | String c rest =>
    if Ascii.eqb c "/" then
      lex_loop rest symbol_name (push tokens REGEX (Some regex))
    else if Ascii.eqb c squote then
      match rest with
      | EmptyString => report_error_and_exit "broken escape sequence in regex"
      | String e rest' =>
        if Ascii.eqb e "/" then
          lex_regex rest' (regex +:+ "/") symbol_name tokens
        else if Ascii.eqb e squote then
          lex_regex rest' (regex +:+ str squote) symbol_name tokens
        else report_error_and_exit "unrecognized escape sequence in regex"
      end
    else lex_regex rest (regex +:+ str c) symbol_name tokens
  end

(** the loop after [#]: it stops in front of the newline, which the main
    loop then drops as whitespace *)
with lex_comment (bnf : string) (symbol_name : option string)
    (tokens : list Token) {struct bnf} : result (list Token) :=
  match bnf with
  | EmptyString => Ok tokens
  | String c rest =>
    if Ascii.eqb c newline then lex_loop rest symbol_name tokens
    else lex_comment rest symbol_name tokens
  end.

Definition lex_bnf (bnf : string) : result (list Token) :=
  lex_loop bnf None [].

(** ** The [random] module

    Every draw of [random] goes through [_randbelow]; the generator is a
    stream of raw draws and a cursor into it. *)

Record Random : Type := mkRandom { raw : nat → nat; cursor : nat }.

Definition randbelow (n : nat) (g : Random) : nat * Random :=
  (raw g (cursor g) mod n, mkRandom (raw g) (S (cursor g))).

(** [random.randint(a, b)] *)
Definition randint (a b : nat) (g : Random) : nat * Random :=
  let '(k, g') := randbelow (b - a + 1) g in (a + k, g').

(** [random.choice(seq)]: an empty sequence raises [IndexError] *)
Definition choice {A} (seq : list A) (g : Random) : result (A * Random) :=
  match seq with
  | [] => Err IndexError
  | _ =>
    let '(k, g') := randbelow (length seq) g in
    match seq !! k with
    | Some x => Ok (x, g')
    | None => Err IndexError
    end
  end.

(** ** The regular-expression collaborators: [re] and [rstr] *)

Class RegexLib : Type := {
  Pattern : Type;
  (** [re.compile]; [None] when it raises [re.error] *)
  re_compile : string → option Pattern;
  (** [str] of a compiled pattern *)
  pattern_str : Pattern → string;
  (** [xegerm.xeger] with [star_plus_limit] set: the string and the state
      of [random] it leaves, or the exception it raises (the patched
      [_handle_repeat] raises [ValueError] on an empty range) *)
  xeger : Pattern → nat → Random → result (string * Random);
  (** [rstr] raises exceptions, it never exits the process *)
  xeger_no_exit pattern limit g printed code :
    xeger pattern limit g ≠ Err (SystemExit printed code);
}.

Section Pybnfuzzer.
Context `{RegexLib}.

(** ** Rules

    An [addr] names a Python object.  A [ReferenceRule] is an object with a
    mutable flag, so it carries its own address [self]; its [context] is
    the address of the dictionary it was given. *)

Definition addr : Type := nat.

Inductive Rule : Type :=
| LiteralRule (value : option string)
| RegexRule (value : Pattern)
| CompoundRule (values : list Rule)
| AlterationRule (values : list Rule)
| ReferenceRule (self : addr) (symbol : option string) (context : addr)
| OptionalRule (value : Rule)
| NoneOrMoreRule (value : Rule)
| OneOrMoreRule (value : Rule).

Record Heap : Type := mkHeap {
  dicts : gmap addr (gmap (option string) Rule);
  had_repr_call : gset addr;
  next_addr : addr;
}.

Definition empty_heap : Heap := mkHeap ∅ ∅ 0.

(** [context.get(symbol)] *)
Definition context_get (h : Heap) (context : addr) (symbol : option string)
    : option Rule :=
  d ← dicts h !! context; d !! symbol.

(** an f-string field holding a [str] or [None] *)
Definition fmt (v : option string) : string :=
  match v with Some s => s | None => "None" end.

Definition angle (v : option string) : string := "<" +:+ fmt v +:+ ">".

(** ** Definition extractor

    The dictionary of definitions keeps insertion order, which is the order
    the rule builder walks it in. *)

Definition DictOfSymbolDefinitions : Type := list (option string * list Token).

Definition has_key {V} (k : option string) (d : list (option string * V)) : bool :=
  bool_decide (k ∈ d.*1).

Definition msg_redefine (rule_symbol : option string) : string :=
  "attempt to redefine existing rule " +:+ quoted (fmt rule_symbol).

(** [prev] is [tokens[idx - 1]], [None] when [idx = 0] *)
Fixpoint definitions_loop (prev : option Token) (tokens : list Token)
    (definitions : DictOfSymbolDefinitions) {struct tokens}
    : result DictOfSymbolDefinitions :=
  match tokens with
  | [] => Ok definitions
  | t :: rest =>
    if decide (kind t = DEFINE) then
      match prev with
      | Some p =>
        if decide (kind p = SYMBOL) then
          rule_tokens_loop (value p) [] rest definitions
        else report_error_and_exit "missing symbol for definition"
      | None => report_error_and_exit "missing symbol for definition"
      end
    else definitions_loop (Some t) rest definitions
  end

(** the inner loop, up to the semicolon *)
with rule_tokens_loop (rule_symbol : option string) (rule_tokens : list Token)
    (tokens : list Token) (definitions : DictOfSymbolDefinitions)
    {struct tokens} : result DictOfSymbolDefinitions :=
  match tokens with
  | [] => report_error_and_exit "missing semicolon for rule definition"
  | t :: rest =>
    if decide (kind t = SEMICOLON) then
      if has_key rule_symbol definitions then
        report_error_and_exit (msg_redefine rule_symbol)
      else definitions_loop (Some t) rest (definitions ++ [(rule_symbol, rule_tokens)])
    else rule_tokens_loop rule_symbol (rule_tokens ++ [t]) rest definitions
  end.

Definition parse_all_symbol_definitions (tokens : list Token)
    : result DictOfSymbolDefinitions :=
  definitions_loop None tokens [].

(** ** Rule builder *)

Definition kind_str (k : TokenKind) : string :=
  "TokenKind." +:+
  match k with
  | DEFINE => "DEFINE" | SYMBOL => "SYMBOL" | LITERAL => "LITERAL"
  | SEMICOLON => "SEMICOLON" | ALTER => "ALTER" | REGEX => "REGEX"
  | OPAREN => "OPAREN" | CPAREN => "CPAREN" | STAR => "STAR"
  | PLUS => "PLUS" | OPTION => "OPTION"
  end.

Definition msg_empty_variant (rule_symbol : option string) : string :=
  "empty alteration variant in rule " +:+ angle rule_symbol.
Definition msg_unsupported (k : TokenKind) : string :=
  "rules of kind " +:+ kind_str k +:+ " are not supported yet".
Definition msg_empty_rule (rule_symbol : option string) : string :=
  "rule " +:+ angle rule_symbol +:+ " is empty".
Definition msg_no_start : string :=
  "could not find an entry point; grammar must contain a <start> rule".

(** [list.pop()]: the last item and the list without it *)
Fixpoint pop {A} (l : list A) : result (A * list A) :=
  match l with
  | [] => Err IndexError
  | [x] => Ok (x, [])
  | x :: l' => '(y, r) ← pop l'; Ok (y, x :: r)
  end.

(** [re.compile(value)] on a token value *)
Definition compile (v : option string) : result Pattern :=
  match v with
  | None => Err TypeError
  | Some s => match re_compile s with Some p => Ok p | None => Err ReError end
  end.

(** the three-way choice made when a variant is complete *)
Definition make_variant (rule_symbol : option string)
    (current_variant_rules : list Rule) : result Rule :=
  match current_variant_rules with
  | [] => report_error_and_exit (msg_empty_variant rule_symbol)
  | [variant] => Ok variant
  | _ => Ok (CompoundRule current_variant_rules)
  end.

(** the [while] loop over one symbol's tokens; [next] is the address of the
    next object to be created *)
Fixpoint rule_loop (rule_symbol : option string) (parsed_rules : addr)
    (rule_tokens : list Token)
    (alteration_variants current_variant_rules : list Rule) (next : addr)
    {struct rule_tokens} : result (list Rule * list Rule * addr) :=
  match rule_tokens with
  | [] => Ok (alteration_variants, current_variant_rules, next)
  | t :: rest =>
    let continue := rule_loop rule_symbol parsed_rules rest in
    match kind t with
    | LITERAL =>
      continue alteration_variants
        (current_variant_rules ++ [LiteralRule (value t)]) next
    | REGEX =>
      p ← compile (value t);
      continue alteration_variants (current_variant_rules ++ [RegexRule p]) next
    | SYMBOL =>
      continue alteration_variants
        (current_variant_rules ++ [ReferenceRule next (value t) parsed_rules])
        (S next)
    | OPTION =>
      '(to_make_optional, remaining) ← pop current_variant_rules;
      continue alteration_variants
        (remaining ++ [OptionalRule to_make_optional]) next
    | STAR =>
      '(to_make_repeatable, remaining) ← pop current_variant_rules;
      continue alteration_variants
        (remaining ++ [NoneOrMoreRule to_make_repeatable]) next
    | PLUS =>
      '(to_make_repeatable, remaining) ← pop current_variant_rules;
      continue alteration_variants
        (remaining ++ [OneOrMoreRule to_make_repeatable]) next
    | ALTER =>
      variant ← make_variant rule_symbol current_variant_rules;
      continue (alteration_variants ++ [variant]) [] next
    | k => report_error_and_exit (msg_unsupported k)
    end
  end.

(** the body of the [for] loop: one symbol's rule *)
Definition build_rule (rule_symbol : option string) (parsed_rules : addr)
    (rule_tokens : list Token) (next : addr) : result (Rule * addr) :=
  '(alteration_variants, current_variant_rules, next') ←
    rule_loop rule_symbol parsed_rules rule_tokens [] [] next;
  variant ← make_variant rule_symbol current_variant_rules;
  match alteration_variants ++ [variant] with
  | [] => report_error_and_exit (msg_empty_rule rule_symbol)
  | [rule] => Ok (rule, next')
  | variants => Ok (AlterationRule variants, next')
  end.

(** the [for] loop over [definitions.items()]; [table] is the content of the
    dictionary at address [parsed_rules] so far *)
Fixpoint rules_loop (parsed_rules : addr)
    (definitions : DictOfSymbolDefinitions)
    (table : gmap (option string) Rule) (next : addr)
    : result (gmap (option string) Rule * addr) :=
  match definitions with
  | [] => Ok (table, next)
  | (rule_symbol, rule_tokens) :: rest =>
    '(rule, next') ← build_rule rule_symbol parsed_rules rule_tokens next;
    rules_loop parsed_rules rest (<[rule_symbol := rule]> table) next'
  end.

Definition parse_bnf_tokens (tokens : list Token) (h : Heap)
    : result (Rule * Heap) :=
  definitions ← parse_all_symbol_definitions tokens;
  if negb (has_key (Some "start") definitions) then
    report_error_and_exit msg_no_start
  else
    let parsed_rules := next_addr h in
    '(table, next) ← rules_loop parsed_rules definitions ∅ (S parsed_rules);
    Ok (ReferenceRule next (Some "start") parsed_rules,
        mkHeap (<[parsed_rules := table]> (dicts h)) (had_repr_call h) (S next)).

Definition parse_bnf (bnf : string) (h : Heap) : result (Rule * Heap) :=
  tokens ← lex_bnf bnf;
  parse_bnf_tokens tokens h.

(** ** Generator

    A call of [gen] returns a Python value, a [str] or [None]; [depth] is
    what is left of the interpreter's recursion limit. *)

Definition msg_undefined (symbol : option string) : string :=
  "reference to an undefined rule " +:+ angle symbol.

(** [''.join(items)]: every item is produced first, then checked *)
Definition join (items : list (option string)) : result string :=
  match mapM id items with
  | Some strs => Ok (String.concat "" strs)
  | None => Err TypeError
  end.

(** the generator expression [r.gen() for r in rules], run to its end *)
Fixpoint gen_each (gen : Rule → Random → result (option string * Random))
    (rules : list Rule) (g : Random) : result (list (option string) * Random) :=
  match rules with
  | [] => Ok ([], g)
  | r :: rest =>
    '(s, g1) ← gen r g;
    '(ss, g2) ← gen_each gen rest g1;
    Ok (s :: ss, g2)
  end.

Fixpoint gen (depth : nat) (h : Heap) (rule : Rule) (g : Random)
    : result (option string * Random) :=
  match depth with
  | 0 => Err RecursionError
  | S depth =>
    match rule with
    | LiteralRule value => Ok (value, g)
    | RegexRule value =>
      '(s, g') ← xeger value REGEXP_REPEAT_LIMIT g; Ok (Some s, g')
    | CompoundRule values =>
      '(items, g') ← gen_each (gen depth h) values g;
      s ← join items; Ok (Some s, g')
    | AlterationRule values =>
      '(value, g') ← choice values g;
      gen depth h value g'
    | ReferenceRule _ symbol context =>
      match context_get h context symbol with
      | None => report_error_and_exit (msg_undefined symbol)
      | Some value => gen depth h value g
      end
    | OptionalRule value =>
      '(b, g') ← choice [true; false] g;
      if b : bool then gen depth h value g' else Ok (Some ""%string, g')
    | NoneOrMoreRule value =>
      let '(times, g') := randint 0 START_LIMIT g in
      '(items, g'') ← gen_each (gen depth h) (replicate times value) g';
      s ← join items; Ok (Some s, g'')
    | OneOrMoreRule value =>
      let '(times, g') := randint 1 PLUS_LIMIT g in
      '(items, g'') ← gen_each (gen depth h) (replicate times value) g';
      s ← join items; Ok (Some s, g'')
    end
  end.

(** ** Introspector

    [repr] of a rule.  A [ReferenceRule] sets its own [__had_repr_call]
    flag the first time it is printed; the flags are part of the heap. *)

(** [s.replace('\n', '\\n')] *)
Fixpoint escape_newlines (s : string) : string :=
  match s with
  | EmptyString => EmptyString
  | String c s' =>
    if Ascii.eqb c newline then String backslash (String "n" (escape_newlines s'))
    else String c (escape_newlines s')
  end.

Definition set_had_repr_call (self : addr) (h : Heap) : Heap :=
  mkHeap (dicts h) ({[self]} ∪ had_repr_call h) (next_addr h).

Definition msg_reference_to_self (symbol : option string) : string :=
  "ReferenceRule(" +:+ angle symbol +:+ " with reference to self)".

(** the generator expression [repr(v) for v in values], run to its end *)
Fixpoint repr_each (repr : Rule → Heap → result (string * Heap))
    (values : list Rule) (h : Heap) : result (list string * Heap) :=
  match values with
  | [] => Ok ([], h)
  | v :: rest =>
    '(s, h1) ← repr v h;
    '(ss, h2) ← repr_each repr rest h1;
    Ok (s :: ss, h2)
  end.

Fixpoint repr (depth : nat) (rule : Rule) (h : Heap) : result (string * Heap) :=
  match depth with
  | 0 => Err RecursionError
  | S depth =>
    match rule with
    | LiteralRule value =>
      match value with
      | None => Err AttributeError
      | Some s => Ok ("LiteralRule(" +:+ quoted (escape_newlines s) +:+ ")", h)
      end
    | RegexRule value => Ok ("RegexRule(" +:+ pattern_str value +:+ ")", h)
    | CompoundRule values =>
      '(items, h') ← repr_each (repr depth) values h;
      Ok ("CompoundRule(" +:+ String.concat ", " items +:+ ")", h')
    | AlterationRule values =>
      '(items, h') ← repr_each (repr depth) values h;
      Ok ("AlterationRule(" +:+ String.concat ", " items +:+ ")", h')
    | ReferenceRule self symbol context =>
      if bool_decide (self ∈ had_repr_call h) then
        Ok (msg_reference_to_self symbol, h)
      else
        let h := set_had_repr_call self h in
        match context_get h context symbol with
        | None =>
          Ok ("ReferenceRule(" +:+ angle symbol +:+ " with None)", h)
        | Some value =>
          '(s, h') ← repr depth value h;
          Ok ("ReferenceRule(" +:+ angle symbol +:+ " with " +:+ s +:+ ")", h')
        end
    | OptionalRule value =>
      '(s, h') ← repr depth value h; Ok ("OptionalRule(" +:+ s +:+ ")", h')
    | NoneOrMoreRule value =>
      '(s, h') ← repr depth value h; Ok ("NoneOrMoreRule(" +:+ s +:+ ")", h')
    | OneOrMoreRule value =>
      '(s, h') ← repr depth value h; Ok ("OneOrMoreRule(" +:+ s +:+ ")", h')
    end
  end.

(** ** The program

    What [main] does with the grammar text once the command line is read:
    parse, then print the tree or a generated string.  [RecursionError]
    during generation is turned into a reported error. *)

Definition main (bnf : string) (emit_ast : bool) (depth : nat) (g : Random)
    : result string :=
  '(ast_entry_point, h) ← parse_bnf bnf empty_heap;
  if emit_ast then
    '(s, _) ← repr depth ast_entry_point h; Ok s
  else
    match gen depth h ast_entry_point g with
    | Ok (Some s, _) => Ok s
    | Ok (None, _) => Err TypeError (* [f.write(None)] *)
    | Err RecursionError => report_error_and_exit "maximum recursion depth exceeded"
    | Err e => Err e
    end.

End Pybnfuzzer.

(** A regular-expression library to run examples with: a pattern is its
    source text, every text compiles, and generation returns the text. *)
Definition plain_regex : RegexLib := {|
  Pattern := string;
  re_compile := Some;
  pattern_str := λ p, ("re.compile('" +:+ p +:+ "')")%string;
  xeger := λ p _ g, Ok (p, g);
  xeger_no_exit := λ p _ g printed code H, eq_ind (Ok (p, g))
    (λ r, match r with Ok _ => True | Err _ => False end) I _ H;
|}.

(** ** The patched repetition of [Xeger]

    [_handle_repeat], as the program installs it on [Xeger]: the upper end
    of the range is cut to [star_plus_limit], the number of repetitions is
    drawn with [randint], and each repetition renders the states of the
    repeated item with [_handle_state], which belongs to [rstr].
    [randint] raises [ValueError] on an empty range: [None] here. *)

Section Xeger.
Context {State : Type}.
Variable handle_state : State → Random → string * Random.

(** [''.join(self._handle_state(i) for i in value)] *)
Fixpoint handle_states (value : list State) (g : Random) : string * Random :=
  match value with
  | [] => (""%string, g)
  | i :: value =>
    let '(s, g1) := handle_state i g in
    let '(ss, g2) := handle_states value g1 in
    ((s +:+ ss)%string, g2)
  end.

(** the [for] loop: [times] renderings, appended to [result] *)
Fixpoint repeat_states (times : nat) (value : list State) (result : list string)
    (g : Random) : list string * Random :=
  match times with
  | 0 => (result, g)
  | S times =>
    let '(s, g1) := handle_states value g in
    repeat_states times value (result ++ [s]) g1
  end.

Definition handle_repeat (star_plus_limit start_range end_range : nat)
    (value : list State) (g : Random) : option (string * Random) :=
  let end_range := end_range `min` star_plus_limit in
  if decide (end_range < start_range) then None
  else
    let '(times, g1) := randint start_range end_range g in
    let '(result, g2) := repeat_states times value [] g1 in
    Some (String.concat "" result, g2).

End Xeger.

(** ** Vocabulary of the statements *)

(** the token the extractor sees at [idx - 1] once [tokens] are behind it *)
Fixpoint last_token (prev : option Token) (tokens : list Token) : option Token :=
  match tokens with
  | [] => prev
  | t :: rest => last_token (Some t) rest
  end.

Definition starts_with_define (tokens : list Token) : bool :=
  match tokens with
  | t :: _ => bool_decide (kind t = DEFINE)
  | [] => false
  end.

Definition is_postfix (k : TokenKind) : bool :=
  match k with
  | OPTION | STAR | PLUS => true
  | _ => false
  end.



Section RuleVocabulary.
Context `{RegexLib}.

(** the [context] fields of the [ReferenceRule] nodes of a rule *)
Fixpoint contexts (rule : Rule) : list addr :=
  match rule with
  | LiteralRule _ | RegexRule _ => []
  | CompoundRule values | AlterationRule values => mjoin (contexts <$> values)
  | ReferenceRule _ _ context => [context]
  | OptionalRule value | NoneOrMoreRule value | OneOrMoreRule value =>
    contexts value
  end.

(** every [ReferenceRule] of the rule holds the dictionary at [context] *)
Definition bound_to (context : addr) (rule : Rule) : Prop :=
  Forall (eq context) (contexts rule).

End RuleVocabulary.

(** [n] generations in a row, each returning a string: the strings, in
    order, and the state of [random] after the last one *)
Inductive generations (gen1 : Random → result (option string * Random))
    : nat → Random → list string → Random → Prop :=
| generations_O g : generations gen1 0 g [] g
| generations_S n g s g1 outs g2 :
    gen1 g = Ok (Some s, g1) →
    generations gen1 n g1 outs g2 →
    generations gen1 (S n) g (s :: outs) g2.


(** ** Writing grammar text

    The inverse of what the tokenizer does inside a literal and inside a
    regular expression. *)

(** a string as the body of a quoted literal: backslash, newline and tab
    written as escapes *)
Fixpoint escape_literal (s : string) : string :=
  match s with
  | EmptyString => EmptyString
  | String c s' =>
    if Ascii.eqb c backslash then
      String backslash (String backslash (escape_literal s'))
    else if Ascii.eqb c newline then
      String backslash (String "n" (escape_literal s'))
    else if Ascii.eqb c tab then
      String backslash (String "t" (escape_literal s'))
    else String c (escape_literal s')
  end.

(** a pattern as the body of a slash-delimited regular expression *)
Fixpoint escape_regex (s : string) : string :=
  match s with
  | EmptyString => EmptyString
  | String c s' =>
    if Ascii.eqb c "/" then String squote (String "/" (escape_regex s'))
    else if Ascii.eqb c squote then String squote (String squote (escape_regex s'))
    else String c (escape_regex s')
  end.

Fixpoint all_in (s allowed : string) : bool :=
  match s with
  | EmptyString => true
  | String c s' => char_in c allowed && all_in s' allowed
  end.

(** what the tokenizer puts in a token: a name of allowed characters in a
    [SYMBOL], a string in a [LITERAL] and a [REGEX], nothing elsewhere *)
Definition lexed (t : Token) : Prop :=
  match kind t with
  | SYMBOL =>
    ∃ name, value t = Some name ∧ all_in name ALLOWED_SYMBOL_NAME_CHARACTERS = true
  | LITERAL | REGEX => is_Some (value t)
  | _ => value t = None
  end.

(** ** Rule bodies

    What a rule body is made of, after the syntax help of the program:
    atoms (a literal, a regular expression, a reference), each followed by
    any number of postfix modifiers; sequences of those; alternatives
    separated by [|]. *)

Definition is_unsupported (k : TokenKind) : bool :=
  match k with
  | DEFINE | SEMICOLON | OPAREN | CPAREN => true
  | _ => false
  end.

Inductive Atom : Type :=
| Literal (v : option string)
| Regex (v : option string)
| Reference (v : option string).

Inductive Postfix : Type := Opt | Star | Plus.

Definition Item : Type := Atom * list Postfix.

Definition atom_token (a : Atom) : Token :=
  match a with
  | Literal v => mkToken LITERAL v
  | Regex v => mkToken REGEX v
  | Reference v => mkToken SYMBOL v
  end.

Definition postfix_token (p : Postfix) : Token :=
  match p with
  | Opt => mkToken OPTION None
  | Star => mkToken STAR None
  | Plus => mkToken PLUS None
  end.

Definition item_tokens (item : Item) : list Token :=
  atom_token item.1 :: (postfix_token <$> item.2).

Definition variant_tokens (items : list Item) : list Token :=
  mjoin (item_tokens <$> items).

(** the variants, with an [ALTER] token between two of them *)
Fixpoint body_tokens (variants : list (list Item)) : list Token :=
  match variants with
  | [] => []
  | [items] => variant_tokens items
  | items :: variants => variant_tokens items ++ mkToken ALTER None :: body_tokens variants
  end.

Section RuleBodies.
Context `{RegexLib}.

Definition wrap (r : Rule) (p : Postfix) : Rule :=
  match p with
  | Opt => OptionalRule r
  | Star => NoneOrMoreRule r
  | Plus => OneOrMoreRule r
  end.

(** the rule of an atom; a reference is a new object at address [next] *)
Definition atom_rule (parsed_rules : addr) (a : Atom) (next : addr)
    : result (Rule * addr) :=
  match a with
  | Literal v => Ok (LiteralRule v, next)
  | Regex v => p ← compile v; Ok (RegexRule p, next)
  | Reference v => Ok (ReferenceRule next v parsed_rules, S next)
  end.

(** the modifiers apply to the atom, the first one innermost *)
Definition item_rule (parsed_rules : addr) (item : Item) (next : addr)
    : result (Rule * addr) :=
  '(r, next') ← atom_rule parsed_rules item.1 next;
  Ok (foldl wrap r item.2, next').

Fixpoint items_rules (parsed_rules : addr) (items : list Item) (next : addr)
    : result (list Rule * addr) :=
  match items with
  | [] => Ok ([], next)
  | item :: items =>
    '(r, next1) ← item_rule parsed_rules item next;
    '(rs, next2) ← items_rules parsed_rules items next1;
    Ok (r :: rs, next2)
  end.

(** one rule stands for itself, several for their sequence *)
Definition sequence_of (rules : list Rule) : Rule :=
  match rules with
  | [r] => r
  | _ => CompoundRule rules
  end.

Fixpoint variants_rules (parsed_rules : addr) (variants : list (list Item))
    (next : addr) : result (list Rule * addr) :=
  match variants with
  | [] => Ok ([], next)
  | items :: variants =>
    '(rs, next1) ← items_rules parsed_rules items next;
    '(vs, next2) ← variants_rules parsed_rules variants next1;
    Ok (sequence_of rs :: vs, next2)
  end.

(** one variant stands for itself, several for their alternation *)
Definition alternation_of (variants : list Rule) : Rule :=
  match variants with
  | [v] => v
  | _ => AlterationRule variants
  end.

End RuleBodies.

(** ** Runs of the generator and shapes of rules *)

(** the state of [random] after one draw *)
Definition advance (g : Random) : Random := mkRandom (raw g) (S (cursor g)).

Section RuleShapes.
Context `{RegexLib}.

(** the rules generated one after the other, each returning a string: the
    strings, in order, and the state of [random] after the last one *)
Inductive in_sequence (gen1 : Rule → Random → result (option string * Random))
    : list Rule → Random → list string → Random → Prop :=
| in_sequence_nil g : in_sequence gen1 [] g [] g
| in_sequence_cons rule rules g s g1 outs g2 :
    gen1 rule g = Ok (Some s, g1) →
    in_sequence gen1 rules g1 outs g2 →
    in_sequence gen1 (rule :: rules) g (s :: outs) g2.

(** a rule as the builder makes them from lexed tokens: every literal
    holds a string and every alternation has a variant *)
Fixpoint well_formed (rule : Rule) : bool :=
  match rule with
  | LiteralRule value => bool_decide (is_Some value)
  | RegexRule _ | ReferenceRule _ _ _ => true
  | CompoundRule values => forallb well_formed values
  | AlterationRule values =>
    negb (bool_decide (values = [])) && forallb well_formed values
  | OptionalRule value | NoneOrMoreRule value | OneOrMoreRule value =>
    well_formed value
  end.

(** the nesting depth of a rule, references not followed *)
Fixpoint height (rule : Rule) : nat :=
  match rule with
  | LiteralRule _ | RegexRule _ | ReferenceRule _ _ _ => 1
  | CompoundRule values | AlterationRule values => S (max_list (height <$> values))
  | OptionalRule value | NoneOrMoreRule value | OneOrMoreRule value =>
    S (height value)
  end.

(** the addresses of the [ReferenceRule] objects of a rule *)
Fixpoint selves (rule : Rule) : list addr :=
  match rule with
  | LiteralRule _ | RegexRule _ => []
  | CompoundRule values | AlterationRule values => mjoin (selves <$> values)
  | ReferenceRule self _ _ => [self]
  | OptionalRule value | NoneOrMoreRule value | OneOrMoreRule value =>
    selves value
  end.





(** a heap whose dictionaries hold well-formed rules of height at most
    [bound], with every reference at an address of [known] *)
Definition closed (known : gset addr) (bound : nat) (h : Heap) : Prop :=
  ∀ context symbol value,
    context_get h context symbol = Some value →
    well_formed value = true ∧ height value ≤ bound
    ∧ Forall (λ a, a ∈ known) (selves value).

(** how many references of [known] have not been printed yet *)
Definition pending (known : gset addr) (h : Heap) : nat :=
  size (known ∖ had_repr_call h).

End RuleShapes.

(** ** Example grammars *)

Definition start_x : string := "<start> ::= " +:+ quoted "x" +:+ " ;".
Definition two_rules : string :=
  "<start> ::= <digit>+ '.' <digit>* | 'x' ; <digit> ::= '0' | '1' ;".
Definition no_start : string := "<digit> ::= '0' | '1' ;".

Definition tokens_of (bnf : string) : list Token :=
  match lex_bnf bnf with Ok tokens => tokens | Err _ => [] end.

Definition refers_to_missing : string := "<start> ::= 'a' | <missing> ;".

(** the tree and the heap the program gets from a grammar text *)
Definition heap_of (bnf : string) : Heap :=
  match parse_bnf (H := plain_regex) bnf empty_heap with
  | Ok (_, h) => h
  | Err _ => empty_heap
  end.

Definition root_of (bnf : string) : Rule (H := plain_regex) :=
  match parse_bnf (H := plain_regex) bnf empty_heap with
  | Ok (root, _) => root
  | Err _ => LiteralRule None
  end.

Definition recursive_grammar : string :=
  "<start> ::= 'a' <start>? | <pair> ; <pair> ::= '(' <start> ')' | <pair>* ;".

(** A library that refuses the pattern [(], as [re.compile] does, and is
    [plain_regex] elsewhere. *)
Definition strict_regex : RegexLib := {|
  Pattern := string;
  re_compile := λ s, if String.eqb s "(" then None else Some s;
  pattern_str := λ p, ("re.compile('" +:+ p +:+ "')")%string;
  xeger := λ p _ g, Ok (p, g);
  xeger_no_exit := λ p _ g printed code H, eq_ind (Ok (p, g))
    (λ r, match r with Ok _ => True | Err _ => False end) I _ H;
|}.

(** A library whose generation fails on the pattern [a{7}], as the
    patched [_handle_repeat] does under the limit 5, and is [plain_regex]
    elsewhere. *)
Definition capped_regex : RegexLib := {|
  Pattern := string;
  re_compile := Some;
  pattern_str := λ p, ("re.compile('" +:+ p +:+ "')")%string;
  xeger := λ p _ g, if String.eqb p "a{7}" then Err ValueError else Ok (p, g);
  xeger_no_exit := λ p _ g printed code,
    match String.eqb p "a{7}" as b
      return (if b then Err ValueError else Ok (p, g))
             ≠ Err (SystemExit printed code)
    with
    | true => λ H, eq_ind (Err ValueError)
        (λ r, match r with Err ValueError => True | _ => False end) I _ H
    | false => λ H, eq_ind (Ok (p, g))
        (λ r, match r with Ok _ => True | Err _ => False end) I _ H
    end;
|}.

(** * Properties *)

(** ** Tokenizer *)

Local Arguments Ascii.eqb : simpl never.
Local Arguments String.append : simpl nomatch.

Lemma append_nil_r (s : string) : s +:+ "" = s.
Proof. induction s as [|c s IH]; simpl; by rewrite ?IH. Qed.

Lemma append_assoc (s1 s2 s3 : string) : (s1 +:+ s2) +:+ s3 = s1 +:+ s2 +:+ s3.
Proof. induction s1 as [|c s1 IH]; simpl; by rewrite ?IH. Qed.

Lemma char_in_cons_false c d s :
  char_in c (String d s) = false → Ascii.eqb d c = false ∧ char_in c s = false.
Proof.
  simpl. rewrite (Ascii.eqb_sym d c).
  destruct (Ascii.eqb c d); [discriminate | auto].
Qed.

Lemma report_is_reported {A} text : reported (@report_error_and_exit A text).
Proof. unfold reported, report_error_and_exit. eauto. Qed.

Lemma raise_not_reported {A} (e : PyError) :
  (∀ printed code, e ≠ SystemExit printed code) → ¬ reported (@Err A e).
Proof. intros He (printed & code & [= ->]). by eapply He. Qed.

(** A literal whose text stops right after a backslash: the escape reads
    one character past the end. *)
Lemma lex_literal_dangling_backslash q body value symbol_name tokens :
  q ≠ backslash →
  char_in q body = false → char_in backslash body = false →
  lex_literal q (body +:+ str backslash) value symbol_name tokens = Err IndexError.
Proof.
  intros Hne. revert value. induction body as [|c body IH]; intros value Hq Hb.
  - simpl. destruct (Ascii.eqb backslash q) eqn:E.
    + apply Ascii.eqb_eq in E. congruence.
    + reflexivity.
  - apply char_in_cons_false in Hq as [Hcq Hq].
    apply char_in_cons_false in Hb as [Hcb Hb].
    simpl. rewrite Hcq, Hcb. by apply IH.
Qed.

(** Without escapes, a literal that is never closed is reported. *)
Lemma lex_literal_unterminated q body value symbol_name tokens :
  char_in q body = false → char_in backslash body = false →
  lex_literal q body value symbol_name tokens
  = report_error_and_exit (msg_unterminated_literal (value +:+ body)).
Proof.
  revert value. induction body as [|c body IH]; intros value Hq Hb.
  - simpl. by rewrite append_nil_r.
  - apply char_in_cons_false in Hq as [Hcq Hq].
    apply char_in_cons_false in Hb as [Hcb Hb].
    simpl. rewrite Hcq, Hcb, IH by done.
    by rewrite append_assoc.
Qed.

Lemma lex_loop_quote q bnf symbol_name tokens :
  q = dquote ∨ q = squote →
  lex_loop (String q bnf) symbol_name tokens
  = lex_literal q bnf "" symbol_name tokens.
Proof. by intros [-> | ->]. Qed.

(** C4 (code at the failing input): a quoted literal that is opened, holds
    neither a closing quote nor an escape, and is cut by the end of the text
    right after a backslash does not end in the reported
    unterminated-literal error: the tokenizer reads one character past the
    end and raises an uncaught [IndexError]. *)
Theorem lex_bnf_literal_dangling_backslash (q : ascii) (body : string) :
  q = dquote ∨ q = squote →
  char_in q body = false → char_in backslash body = false →
  lex_bnf (String q (body +:+ str backslash)) = Err IndexError
  ∧ ¬ reported (lex_bnf (String q (body +:+ str backslash)))
  ∧ lex_bnf (String q body)
    = report_error_and_exit (msg_unterminated_literal body).
Proof.
  intros Hq Hnq Hnb. unfold lex_bnf. rewrite !lex_loop_quote by done.
  assert (q ≠ backslash) by (by destruct Hq as [-> | ->]).
  rewrite lex_literal_dangling_backslash, lex_literal_unterminated by done.
  split_and!; [done | by apply raise_not_reported | done].
Qed.

Lemma lex_bnf_literal_dangling_backslash_witness :
  lex_bnf (String dquote ("ab" +:+ str backslash)) = Err IndexError
  ∧ ¬ reported (lex_bnf (String dquote ("ab" +:+ str backslash)))
  ∧ lex_bnf (String dquote "ab")
    = report_error_and_exit (msg_unterminated_literal "ab").
Proof.
  apply (lex_bnf_literal_dangling_backslash dquote "ab");
    [by left | reflexivity | reflexivity].
Defined.

(** A regular expression that is never closed, with no escape in it. *)
Lemma lex_regex_unterminated body regex symbol_name tokens :
  char_in "/" body = false → char_in squote body = false →
  lex_regex body regex symbol_name tokens
  = match symbol_name with
    | None => Err UnboundLocalError
    | Some name => report_error_and_exit (msg_unterminated_literal name)
    end.
Proof.
  revert regex. induction body as [|c body IH]; intros regex Hs Hq; [done|].
  apply char_in_cons_false in Hs as [Hcs Hs].
  apply char_in_cons_false in Hq as [Hcq Hq].
  simpl. rewrite Hcs, Hcq. by apply IH.
Qed.

(** C5 (code at the failing input): a regular expression that is opened
    and never closed, when no symbol was lexed before it, is not reported:
    the message reads the unbound variable [symbol_name] and the tokenizer
    raises an uncaught [UnboundLocalError].  After a symbol [<name>] the
    report quotes that name, whatever the regular expression was. *)
Theorem lex_bnf_regex_unterminated (body : string) :
  char_in "/" body = false → char_in squote body = false →
  lex_bnf (String "/" body) = Err UnboundLocalError
  ∧ ¬ reported (lex_bnf (String "/" body))
  ∧ lex_bnf ("<name>/" +:+ body)
    = report_error_and_exit (msg_unterminated_literal "name").
Proof.
  intros Hs Hq. unfold lex_bnf.
  change (lex_loop (String "/" body) None [])
    with (lex_regex body "" None []).
  change (lex_loop ("<name>/" +:+ body) None [])
    with (lex_regex body "" (Some "name"%string) (push [] SYMBOL (Some "name"%string))).
  rewrite !lex_regex_unterminated by done.
  split_and!; [done | by apply raise_not_reported | done].
Qed.

Lemma lex_bnf_regex_unterminated_witness :
  lex_bnf (String "/" "[0-9]+") = Err UnboundLocalError
  ∧ ¬ reported (lex_bnf (String "/" "[0-9]+"))
  ∧ lex_bnf ("<name>/" +:+ "[0-9]+")
    = report_error_and_exit (msg_unterminated_literal "name").
Proof.
  apply (lex_bnf_regex_unterminated "[0-9]+"); reflexivity.
Defined.

(** ** Definition extractor *)

(** Both loops of the extractor, once they have come back to the outer
    loop at the end of [pre], go on with what follows as if started
    there. *)
Lemma extractor_loops_app (pre post : list Token) :
  (∀ prev defs defs',
     definitions_loop prev pre defs = Ok defs' →
     definitions_loop prev (pre ++ post) defs
     = definitions_loop (last_token prev pre) post defs')
  ∧ (∀ prev rule_symbol rule_tokens defs defs',
     rule_tokens_loop rule_symbol rule_tokens pre defs = Ok defs' →
     rule_tokens_loop rule_symbol rule_tokens (pre ++ post) defs
     = definitions_loop (last_token prev pre) post defs').
Proof.
  induction pre as [|t pre [IHd IHr]]; split.
  - by intros prev defs defs' [= ->].
  - by intros.
  - intros prev defs defs'. simpl. destruct (decide (kind t = DEFINE)).
    + destruct prev as [p|]; [|done].
      destruct (decide (kind p = SYMBOL)); [|done].
      apply IHr.
    + apply IHd.
  - intros prev rule_symbol rule_tokens defs defs'. simpl.
    destruct (decide (kind t = SEMICOLON)).
    + destruct (has_key rule_symbol defs); [done|]. apply IHd.
    + apply IHr.
Qed.

Lemma definitions_loop_app prev pre post defs defs' :
  definitions_loop prev pre defs = Ok defs' →
  definitions_loop prev (pre ++ post) defs
  = definitions_loop (last_token prev pre) post defs'.
Proof. apply extractor_loops_app. Qed.

(** Tokens that are not [DEFINE] are stepped over by the outer loop. *)
Lemma definitions_loop_skip prev stray post defs :
  Forall (λ t, kind t ≠ DEFINE) stray →
  definitions_loop prev (stray ++ post) defs
  = definitions_loop (last_token prev stray) post defs.
Proof.
  intros Hs. revert prev. induction Hs as [|t stray Ht _ IH]; intros prev; [done|].
  simpl. destruct (decide (kind t = DEFINE)); [done|]. apply IH.
Qed.

(** The outer loop looks at the previous token only in front of [DEFINE]. *)
Lemma definitions_loop_prev prev1 prev2 tokens defs :
  starts_with_define tokens = false →
  definitions_loop prev1 tokens defs = definitions_loop prev2 tokens defs.
Proof.
  destruct tokens as [|t tokens]; [done|]. simpl. intros Ht.
  apply bool_decide_eq_false in Ht. by destruct (decide (kind t = DEFINE)).
Qed.

(** The inner loop, once the symbol is already defined, fails at the
    semicolon whatever it collected. *)
Lemma rule_tokens_loop_redefine rule_symbol rule_tokens body semi rest defs :
  kind semi = SEMICOLON → has_key rule_symbol defs = true →
  rule_tokens_loop rule_symbol rule_tokens (body ++ semi :: rest) defs
  = report_error_and_exit (msg_redefine rule_symbol).
Proof.
  intros Hsemi Hkey. revert rule_tokens.
  induction body as [|t body IH]; intros rule_tokens; simpl.
  - destruct (decide (kind semi = SEMICOLON)); [|done]. by rewrite Hkey.
  - destruct (decide (kind t = SEMICOLON)); [by rewrite Hkey | apply IH].
Qed.

(** C9: when a token stream defines a symbol a second time, whatever the
    tokens of the second definition are (the same as the first or not),
    the extractor fails with the reported redefinition error.  [pre] is
    the stream up to the second definition: extracted on its own it
    yields definitions that already hold [rule_symbol]. *)
Theorem redefinition_is_fatal
    (pre body rest : list Token) (symbol define semi : Token)
    (defs : DictOfSymbolDefinitions) :
  kind symbol = SYMBOL → kind define = DEFINE → kind semi = SEMICOLON →
  parse_all_symbol_definitions pre = Ok defs →
  value symbol ∈ defs.*1 →
  parse_all_symbol_definitions
    (pre ++ symbol :: define :: body ++ semi :: rest)
  = report_error_and_exit (msg_redefine (value symbol))
  ∧ reported (parse_all_symbol_definitions
                (pre ++ symbol :: define :: body ++ semi :: rest)).
Proof.
  intros Hsym Hdef Hsemi Hpre Hin.
  assert (parse_all_symbol_definitions
            (pre ++ symbol :: define :: body ++ semi :: rest)
          = report_error_and_exit (msg_redefine (value symbol))) as ->.
  { unfold parse_all_symbol_definitions in *.
    rewrite (definitions_loop_app _ _ _ _ _ Hpre). simpl.
    destruct (decide (kind symbol = DEFINE)); [congruence|].
    destruct (decide (kind define = DEFINE)); [|done].
    destruct (decide (kind symbol = SYMBOL)); [|done].
    apply rule_tokens_loop_redefine; [done|].
    by apply bool_decide_eq_true. }
  split; [done | apply report_is_reported].
Qed.

Lemma redefinition_is_fatal_witness :
  let a := mkToken SYMBOL (Some "a"%string) in
  let define := mkToken DEFINE None in
  let semi := mkToken SEMICOLON None in
  let x := mkToken LITERAL (Some "x"%string) in
  let y := mkToken LITERAL (Some "y"%string) in
  (parse_all_symbol_definitions
     ([a; define; x; semi] ++ a :: define :: [y] ++ semi :: [])
   = report_error_and_exit (msg_redefine (Some "a"%string))
   ∧ reported (parse_all_symbol_definitions
                 ([a; define; x; semi] ++ a :: define :: [y] ++ semi :: [])))
  ∧ (parse_all_symbol_definitions
       ([a; define; x; semi] ++ a :: define :: [x] ++ semi :: [])
     = report_error_and_exit (msg_redefine (Some "a"%string))
     ∧ reported (parse_all_symbol_definitions
                   ([a; define; x; semi] ++ a :: define :: [x] ++ semi :: []))).
Proof.
  intros a define semi x y. split.
  - apply (redefinition_is_fatal [a; define; x; semi] [y] [] a define semi
             [(Some "a"%string, [x])]);
      [reflexivity | reflexivity | reflexivity | reflexivity | simpl; constructor].
  - apply (redefinition_is_fatal [a; define; x; semi] [x] [] a define semi
             [(Some "a"%string, [x])]);
      [reflexivity | reflexivity | reflexivity | reflexivity | simpl; constructor].
Defined.

(** C10: tokens outside every [SYMBOL DEFINE ... SEMICOLON] span are
    skipped.  [pre] ends outside a span (it is extracted without error),
    the stray tokens hold no [DEFINE], and what follows does not start
    with one: with or without the stray tokens the extractor returns the
    same result, so they raise no error and leave the definitions alone. *)
Theorem stray_tokens_are_skipped (pre stray post : list Token)
    (defs : DictOfSymbolDefinitions) :
  parse_all_symbol_definitions pre = Ok defs →
  Forall (λ t, kind t ≠ DEFINE) stray →
  starts_with_define post = false →
  parse_all_symbol_definitions (pre ++ stray ++ post)
  = parse_all_symbol_definitions (pre ++ post)
  ∧ parse_all_symbol_definitions (pre ++ stray) = Ok defs.
Proof.
  intros Hpre Hstray Hpost. unfold parse_all_symbol_definitions in *.
  rewrite !(definitions_loop_app _ _ _ _ _ Hpre).
  rewrite definitions_loop_skip by done. split.
  - by apply definitions_loop_prev.
  - rewrite <- (app_nil_r stray). by rewrite definitions_loop_skip.
Qed.

Lemma stray_tokens_are_skipped_witness :
  let a := mkToken SYMBOL (Some "a"%string) in
  let b := mkToken SYMBOL (Some "b"%string) in
  let define := mkToken DEFINE None in
  let semi := mkToken SEMICOLON None in
  let x := mkToken LITERAL (Some "x"%string) in
  let stray := [x; b; mkToken STAR None; semi; mkToken OPAREN None] in
  (parse_all_symbol_definitions
     ([a; define; x; semi] ++ stray ++ [b; define; x; semi])
   = parse_all_symbol_definitions ([a; define; x; semi] ++ [b; define; x; semi])
   ∧ parse_all_symbol_definitions ([a; define; x; semi] ++ stray)
     = Ok [(Some "a"%string, [x])])
  ∧ (parse_all_symbol_definitions ([] ++ stray ++ [a; define; x; semi])
     = parse_all_symbol_definitions ([] ++ [a; define; x; semi])
     ∧ parse_all_symbol_definitions ([] ++ stray) = Ok []).
Proof.
  intros a b define semi x stray. split.
  - apply (stray_tokens_are_skipped [a; define; x; semi] stray
             [b; define; x; semi] [(Some "a"%string, [x])]);
      [reflexivity | repeat constructor; discriminate | reflexivity].
  - apply (stray_tokens_are_skipped [] stray [a; define; x; semi] []);
      [reflexivity | repeat constructor; discriminate | reflexivity].
Defined.

(** ** Rule builder *)

Section Builder.
Context `{RegexLib}.

Lemma rule_loop_app rule_symbol parsed_rules pre post variants current next :
  rule_loop rule_symbol parsed_rules (pre ++ post) variants current next
  = '(variants', current', next') ←
      rule_loop rule_symbol parsed_rules pre variants current next;
    rule_loop rule_symbol parsed_rules post variants' current' next'.
Proof.
  revert variants current next.
  induction pre as [|t pre IH]; intros variants current next; [done|].
  simpl. destruct (kind t); simpl; auto;
    (destruct (compile _) || destruct (make_variant _ _)
     || destruct (pop _) as [[? ?]|]); simpl; auto.
Qed.

(** After an [ALTER] token the current sequence is empty. *)
Lemma rule_loop_after_alter rule_symbol parsed_rules pre alter
    variants current next variants' current' next' :
  kind alter = ALTER →
  rule_loop rule_symbol parsed_rules (pre ++ [alter]) variants current next
  = Ok (variants', current', next') →
  current' = [].
Proof.
  intros Halter. rewrite rule_loop_app.
  destruct (rule_loop _ _ pre _ _ _) as [[[vs cur] n]|]; [|done].
  simpl. rewrite Halter.
  destruct (make_variant rule_symbol cur); simpl; [|done].
  by intros [= _ <- _].
Qed.

Lemma rule_loop_postfix_empty rule_symbol parsed_rules t rest variants next :
  is_postfix (kind t) = true →
  rule_loop rule_symbol parsed_rules (t :: rest) variants [] next
  = Err IndexError.
Proof. simpl. by destruct (kind t). Qed.

(** C2 (code at the failing input): when [OPTION], [STAR] or [PLUS] is
    reached with an empty current sequence (the tokens [pre] before it
    leave it empty: there are none, or they end with [ALTER]), the builder
    does not report an error: [pop] on the empty list raises an uncaught
    [IndexError]. *)
Theorem postfix_on_empty_stack
    (rule_symbol : option string) (parsed_rules next next' : addr)
    (pre rest : list Token) (t : Token) (variants : list Rule) :
  is_postfix (kind t) = true →
  rule_loop rule_symbol parsed_rules pre [] [] next = Ok (variants, [], next') →
  build_rule rule_symbol parsed_rules (pre ++ t :: rest) next = Err IndexError
  ∧ ¬ reported (build_rule rule_symbol parsed_rules (pre ++ t :: rest) next).
Proof.
  intros Ht Hpre.
  assert (build_rule rule_symbol parsed_rules (pre ++ t :: rest) next
          = Err IndexError) as ->.
  { unfold build_rule. rewrite rule_loop_app, Hpre.
    cbn [mbind result_bind]. by rewrite rule_loop_postfix_empty. }
  split; [done | by apply raise_not_reported].
Qed.

End Builder.

Lemma postfix_on_empty_stack_witness :
  let lit := mkToken LITERAL (Some "a"%string) in
  let alter := mkToken ALTER None in
  (build_rule (H := plain_regex) (Some "start"%string) 0
     ([] ++ mkToken OPTION None :: []) 1 = Err IndexError
   ∧ ¬ reported (build_rule (H := plain_regex) (Some "start"%string) 0
                   ([] ++ mkToken OPTION None :: []) 1))
  ∧ (build_rule (H := plain_regex) (Some "start"%string) 0
       ([lit; alter] ++ mkToken STAR None :: [lit]) 1 = Err IndexError
     ∧ ¬ reported (build_rule (H := plain_regex) (Some "start"%string) 0
                     ([lit; alter] ++ mkToken STAR None :: [lit]) 1)).
Proof.
  intros lit alter. split.
  - apply (postfix_on_empty_stack (H := plain_regex) (Some "start"%string)
             0 1 1 [] [] (mkToken OPTION None) []); reflexivity.
  - apply (postfix_on_empty_stack (H := plain_regex) (Some "start"%string)
             0 1 1 [lit; alter] [lit] (mkToken STAR None) [LiteralRule (Some "a"%string)]);
      reflexivity.
Defined.

(** The same through the whole program, on a grammar text. *)
Example main_postfix_first :
  main (H := plain_regex) "<start> ::= ? ;" false 1000 (mkRandom (λ _, 0) 0)
  = Err IndexError.
Proof. reflexivity. Qed.

Section BuilderInvariants.
Context `{RegexLib}.

Lemma pop_Some {A} (l r : list A) (x : A) : pop l = Ok (x, r) → l = r ++ [x].
Proof.
  revert r. induction l as [|y l IH]; intros r; [done|].
  destruct l as [|z l].
  - by intros [= -> <-].
  - change (pop (y :: z :: l))
      with ('(x', r') ← pop (z :: l); Ok (x', y :: r')).
    destruct (pop (z :: l)) as [[x' r']|]; [|done].
    intros [= -> <-]. by rewrite (IH r').
Qed.

Lemma bound_to_values context values :
  Forall (bound_to context) values →
  Forall (eq context) (mjoin (contexts <$> values)).
Proof.
  induction 1 as [|v values Hv _ IH]; [constructor|].
  simpl. apply Forall_app. by split.
Qed.

Lemma make_variant_bound rule_symbol context current variant :
  Forall (bound_to context) current →
  make_variant rule_symbol current = Ok variant →
  bound_to context variant.
Proof.
  intros Hcur. destruct current as [|v [|v' current]]; [done|..].
  - intros [= <-]. by inversion Hcur.
  - intros [= <-]. by apply bound_to_values.
Qed.

Lemma rule_loop_bound rule_symbol context tokens
    variants current next variants' current' next' :
  Forall (bound_to context) variants → Forall (bound_to context) current →
  rule_loop rule_symbol context tokens variants current next
  = Ok (variants', current', next') →
  Forall (bound_to context) variants' ∧ Forall (bound_to context) current'.
Proof.
  revert variants current next.
  induction tokens as [|t tokens IH]; intros variants current next Hv Hc.
  { by intros [= <- <- <-]. }
  simpl. destruct (kind t) eqn:Hk; try done.
  - apply IH; [done|]. apply Forall_app. split; [done|].
    repeat constructor.
  - apply IH; [done|]. apply Forall_app. split; [done|].
    repeat constructor.
  - destruct (make_variant rule_symbol current) as [variant|] eqn:Hm; [|done].
    simpl. apply IH; [|constructor].
    apply Forall_app. split; [done|]. repeat constructor.
    by eapply make_variant_bound.
  - destruct (compile (value t)); [|done]. simpl.
    apply IH; [done|]. apply Forall_app. split; [done|].
    repeat constructor.
  - destruct (pop current) as [[x r]|] eqn:Hp; [|done].
    apply pop_Some in Hp as ->. apply Forall_app in Hc as [Hr Hx].
    simpl. apply IH; [done|]. apply Forall_app. split; [done|].
    constructor; [|constructor]. by inversion Hx.
  - destruct (pop current) as [[x r]|] eqn:Hp; [|done].
    apply pop_Some in Hp as ->. apply Forall_app in Hc as [Hr Hx].
    simpl. apply IH; [done|]. apply Forall_app. split; [done|].
    constructor; [|constructor]. by inversion Hx.
  - destruct (pop current) as [[x r]|] eqn:Hp; [|done].
    apply pop_Some in Hp as ->. apply Forall_app in Hc as [Hr Hx].
    simpl. apply IH; [done|]. apply Forall_app. split; [done|].
    constructor; [|constructor]. by inversion Hx.
Qed.

Lemma build_rule_bound rule_symbol context tokens next rule next' :
  build_rule rule_symbol context tokens next = Ok (rule, next') →
  bound_to context rule.
Proof.
  unfold build_rule.
  destruct (rule_loop _ _ _ _ _ _) as [[[variants current] n]|] eqn:Hloop;
    [|done].
  apply rule_loop_bound in Hloop as [Hv Hc]; [|constructor..].
  simpl. destruct (make_variant rule_symbol current) as [variant|] eqn:Hm;
    [|done].
  simpl. apply (make_variant_bound _ context) in Hm; [|done].
  assert (Forall (bound_to context) (variants ++ [variant])) as Hall.
  { apply Forall_app. split; [done|]. by repeat constructor. }
  destruct (variants ++ [variant]) as [|v [|v' vs]]; [done|..].
  - intros [= <- _]. by inversion Hall.
  - intros [= <- _]. by apply bound_to_values.
Qed.

Lemma rules_loop_table context definitions table next table' next' :
  map_Forall (λ _, bound_to context) table →
  rules_loop context definitions table next = Ok (table', next') →
  map_Forall (λ _, bound_to context) table'
  ∧ ∀ symbol, symbol ∈ definitions.*1 ∨ is_Some (table !! symbol) →
              is_Some (table' !! symbol).
Proof.
  revert table next.
  induction definitions as [|[rule_symbol rule_tokens] definitions IH];
    intros table next Htable.
  { intros [= <- <-]. split; [done|]. intros symbol [Hin|]; [|done].
    by apply elem_of_nil in Hin. }
  simpl. destruct (build_rule _ _ _ _) as [[rule n]|] eqn:Hbuild; [|done].
  simpl. intros Hloop. apply build_rule_bound in Hbuild.
  apply IH in Hloop as [Hall Hkeys]; [|by apply map_Forall_insert_2].
  split; [done|]. intros symbol Hsym. apply Hkeys.
  destruct (decide (rule_symbol = symbol)) as [->|Hne].
  - right. by rewrite lookup_insert_eq.
  - rewrite lookup_insert_ne by done.
    destruct Hsym as [Hin|]; [|by right].
    apply elem_of_cons in Hin as [|]; [congruence | by left].
Qed.

End BuilderInvariants.

Section EntryPoint.
Context `{RegexLib}.

(** C8: when the builder returns, it returns a [ReferenceRule] for the
    symbol [start] that holds the dictionary of rules it has built; that
    dictionary has an entry for [start], and every [ReferenceRule] in it
    holds the same dictionary.  When the extracted definitions have no
    [start], the builder fails with the reported entry-point error, and
    so does the program, whatever it was asked to do next. *)
Theorem build_returns_start_reference (tokens : list Token) (h : Heap) :
  (∀ root h',
     parse_bnf_tokens tokens h = Ok (root, h') →
     ∃ self table,
       root = ReferenceRule self (Some "start"%string) (next_addr h)
       ∧ dicts h' !! next_addr h = Some table
       ∧ is_Some (table !! Some "start"%string)
       ∧ map_Forall (λ _, bound_to (next_addr h)) table)
  ∧ (∀ definitions,
       parse_all_symbol_definitions tokens = Ok definitions →
       Some "start"%string ∉ definitions.*1 →
       parse_bnf_tokens tokens h = report_error_and_exit msg_no_start
       ∧ ∀ bnf emit_ast depth g,
           lex_bnf bnf = Ok tokens →
           main bnf emit_ast depth g = report_error_and_exit msg_no_start).
Proof.
  split.
  - intros root h'. unfold parse_bnf_tokens.
    destruct (parse_all_symbol_definitions tokens) as [definitions|]; [|done].
    simpl. unfold has_key. case_bool_decide as Hstart; [|done]. simpl.
    destruct (rules_loop _ _ _ _) as [[table next]|] eqn:Hloop; [|done].
    simpl. intros [= <- <-].
    apply rules_loop_table in Hloop as [Hall Hkeys]; [|apply map_Forall_empty].
    exists next, table. simpl. rewrite lookup_insert_eq.
    split_and!; [done | done | apply Hkeys; by left | done].
  - intros definitions Hdefs Hstart.
    assert (∀ h0, parse_bnf_tokens tokens h0
                  = report_error_and_exit msg_no_start) as Hfail.
    { intros h0. unfold parse_bnf_tokens. rewrite Hdefs. simpl.
      unfold has_key. by rewrite bool_decide_eq_false_2. }
    split; [done|]. intros bnf emit_ast depth g Hlex.
    unfold main, parse_bnf. rewrite Hlex. simpl. by rewrite Hfail.
Qed.

End EntryPoint.

Lemma build_returns_start_reference_witness :
  (∃ root h',
     parse_bnf_tokens (H := plain_regex) (tokens_of two_rules) empty_heap
     = Ok (root, h')
     ∧ ∃ self table,
         root = ReferenceRule self (Some "start"%string) 0
         ∧ dicts h' !! 0 = Some table
         ∧ is_Some (table !! Some "start"%string)
         ∧ map_Forall (λ _, bound_to 0) table)
  ∧ parse_bnf_tokens (H := plain_regex) (tokens_of no_start) empty_heap
    = report_error_and_exit msg_no_start
  ∧ main (H := plain_regex) no_start false 1000 (mkRandom (λ _, 0) 0)
    = report_error_and_exit msg_no_start.
Proof.
  pose proof (build_returns_start_reference (H := plain_regex)
                (tokens_of two_rules) empty_heap) as [Hok _].
  pose proof (build_returns_start_reference (H := plain_regex)
                (tokens_of no_start) empty_heap) as [_ Hno].
  split.
  - destruct (parse_bnf_tokens (tokens_of two_rules) empty_heap)
      as [[root h']|] eqn:Hparse; [|by vm_compute in Hparse].
    exists root, h'. split; [done|]. by apply Hok.
  - destruct (Hno [(Some "digit"%string, tokens_of "'0' | '1'")]) as [Hfail Hmain].
    + reflexivity.
    + simpl. intros Hin. apply list_elem_of_singleton in Hin. discriminate.
    + split; [done|]. by apply Hmain.
Defined.

(** ** Generator *)

(** C6: the grammar text [<start> ::= "x" ;] parses, and generating from
    the rule it yields returns exactly ["x"], for every stream of random
    draws (none is consumed) and every recursion limit that allows the two
    nested calls. *)
Theorem parse_then_generate_x `{RegexLib} (depth : nat) (g : Random) :
  2 ≤ depth →
  (∃ root h,
     parse_bnf start_x empty_heap = Ok (root, h)
     ∧ gen depth h root g = Ok (Some "x"%string, g))
  ∧ main start_x false depth g = Ok "x"%string.
Proof.
  intros Hdepth. destruct depth as [|[|depth]]; [lia | lia |].
  split; [|reflexivity].
  eexists _, _. split; reflexivity.
Qed.

Lemma parse_then_generate_x_witness :
  (∃ root h,
     parse_bnf (H := plain_regex) start_x empty_heap = Ok (root, h)
     ∧ gen 1000 h root (mkRandom (λ n, 7 * n + 3) 0)
       = Ok (Some "x"%string, mkRandom (λ n, 7 * n + 3) 0))
  ∧ main (H := plain_regex) start_x false 1000 (mkRandom (λ n, 7 * n + 3) 0)
    = Ok "x"%string.
Proof.
  apply (parse_then_generate_x (H := plain_regex) 1000
           (mkRandom (λ n, 7 * n + 3) 0)). lia.
Defined.

Section Repetition.
Context `{RegexLib}.

Lemma mapM_id_Some (items : list (option string)) (outs : list string) :
  mapM id items = Some outs ↔ items = Some <$> outs.
Proof.
  rewrite mapM_Some. split.
  - induction 1 as [|x y items outs Hxy _ IH]; [done|].
    simpl in *. by rewrite Hxy, IH.
  - intros ->. induction outs as [|s outs IH]; by constructor.
Qed.

Lemma gen_each_replicate gen1 rule n g outs g' :
  generations (gen1 rule) n g outs g'
  ↔ gen_each gen1 (replicate n rule) g = Ok (Some <$> outs, g').
Proof.
  split.
  - induction 1 as [|n g s g1 outs g2 Hgen _ IH]; [done|].
    simpl. rewrite Hgen. simpl. by rewrite IH.
  - revert g outs. induction n as [|n IH]; intros g outs; simpl.
    + destruct outs; [|done]. intros [= <-]. constructor.
    + destruct (gen1 rule g) as [[s g1]|] eqn:Hgen; [|done]. simpl.
      destruct (gen_each gen1 (replicate n rule) g1) as [[ss g2]|] eqn:Hrest;
        [|done].
      simpl. destruct outs as [|s' outs]; [done|].
      intros [= -> -> ->]. econstructor; [done|]. by apply IH.
Qed.

(** What a repetition does once the count is drawn. *)
Lemma repeat_spec gen1 rule n g s g' :
  ('(items, g'') ← gen_each gen1 (replicate n rule) g;
   s ← join items; Ok (Some s, g''))
  = Ok (Some s, g')
  ↔ ∃ outs, generations (gen1 rule) n g outs g' ∧ s = String.concat "" outs.
Proof.
  split.
  - destruct (gen_each gen1 (replicate n rule) g) as [[items g'']|] eqn:Hgen;
      [|done].
    simpl. unfold join. destruct (mapM id items) as [outs|] eqn:Hm; [|done].
    simpl. intros [= <- <-]. apply mapM_id_Some in Hm as ->.
    exists outs. split; [|done]. by apply gen_each_replicate.
  - intros (outs & Hgen & ->). apply gen_each_replicate in Hgen as ->.
    simpl. unfold join.
    by rewrite (proj2 (mapM_id_Some (Some <$> outs) outs) eq_refl).
Qed.

Lemma randint_range a b g :
  a ≤ b → a ≤ (randint a b g).1 ≤ b.
Proof.
  intros Hab. unfold randint, randbelow. simpl.
  pose proof (Nat.mod_upper_bound (raw g (cursor g)) (b - a + 1)). lia.
Qed.

Lemma randint_constant a b d c :
  d ≤ b - a → (randint a b (mkRandom (λ _, d) c)).1 = a + d.
Proof.
  intros Hd. unfold randint, randbelow. simpl.
  rewrite Nat.mod_small by lia. done.
Qed.

Lemma gen_NoneOrMoreRule depth h value g :
  gen (S depth) h (NoneOrMoreRule value) g
  = '(items, g'') ← gen_each (gen depth h)
                      (replicate (randint 0 START_LIMIT g).1 value)
                      (randint 0 START_LIMIT g).2;
    s ← join items; Ok (Some s, g'').
Proof. cbn [gen]. by destruct (randint 0 START_LIMIT g). Qed.

Lemma gen_OneOrMoreRule depth h value g :
  gen (S depth) h (OneOrMoreRule value) g
  = '(items, g'') ← gen_each (gen depth h)
                      (replicate (randint 1 PLUS_LIMIT g).1 value)
                      (randint 1 PLUS_LIMIT g).2;
    s ← join items; Ok (Some s, g'').
Proof. cbn [gen]. by destruct (randint 1 PLUS_LIMIT g). Qed.

(** [randint a b] is the lower bound plus the residue of one raw draw
    modulo the width of the interval, and it consumes that one draw. *)
Lemma randint_residue a b g :
  randint a b g = (a + raw g (cursor g) mod (b - a + 1), advance g).
Proof. reflexivity. Qed.

(** Among [w] consecutive numbers that start at a multiple of [w], cut to
    the [len] ones from offset [start] on, one has the residue [n] when [n]
    is among the offsets, none otherwise. *)
Lemma residue_window w m n len start :
  start + len ≤ w →
  length (filter (λ d, d mod w = n) (seq (w * m + start) len))
  = if bool_decide (start ≤ n < start + len) then 1 else 0.
Proof.
  revert start. induction len as [|len IH]; intros start Hw.
  { simpl. rewrite bool_decide_eq_false_2; [done | lia]. }
  cbn [seq]. rewrite filter_cons.
  assert ((w * m + start) mod w = start) as Hmod.
  { rewrite (Nat.add_comm (w * m)), (Nat.mul_comm w m), Nat.Div0.mod_add.
    apply Nat.mod_small. lia. }
  rewrite Hmod.
  replace (S (w * m + start)) with (w * m + S start) by lia.
  specialize (IH (S start) ltac:(lia)).
  destruct (decide (start = n)) as [->|Hne]; simpl; rewrite IH.
  - rewrite bool_decide_eq_false_2 by lia.
    by rewrite bool_decide_eq_true_2 by lia.
  - destruct (bool_decide (S start ≤ n < S start + len)) eqn:Hb.
    + apply bool_decide_eq_true in Hb.
      by rewrite bool_decide_eq_true_2 by lia.
    + apply bool_decide_eq_false in Hb.
      by rewrite bool_decide_eq_false_2 by lia.
Qed.

(** Of the raw draws below [w * m], exactly [m] have the residue [n]. *)
Lemma residue_count w m n :
  n < w → length (filter (λ d, d mod w = n) (seq 0 (w * m))) = m.
Proof.
  intros Hn. induction m as [|m IH].
  { by rewrite Nat.mul_0_r. }
  rewrite Nat.mul_succ_r, seq_app, filter_app, length_app, IH.
  pose proof (residue_window w m n w 0 ltac:(lia)) as Hwin.
  rewrite Nat.add_0_r in Hwin. simpl in *. rewrite Hwin.
  rewrite bool_decide_eq_true_2 by lia. lia.
Qed.

(** [randint a b] is uniform: of the raw draws below any multiple
    [(b - a + 1) * m] of the width, exactly [m] give the count [n], for
    every [n] of the interval. *)
Lemma randint_uniform a b n m c :
  a ≤ n ≤ b →
  length (filter (λ d, (randint a b (mkRandom (λ _, d) c)).1 = n)
            (seq 0 ((b - a + 1) * m))) = m.
Proof.
  intros Hn.
  etrans; [|apply (residue_count (b - a + 1) m (n - a)); lia].
  f_equal. apply list_filter_iff. intros d.
  rewrite randint_residue. simpl. lia.
Qed.

(** C7: a [NoneOrMoreRule] draws its count with [randint(0, 5)], a
    [OneOrMoreRule] with [randint(1, 5)] (so never zero); the rule returns
    a string exactly when that many generations of the inner rule, run one
    after the other, each return a string, and then it returns their
    concatenation.  The count is the lower bound plus the residue of one
    raw draw modulo the width of the interval (6 and 5), whatever the
    stream, and the draw is consumed.  The count is uniform: of the raw
    draws below any multiple [6 * m] (or [5 * m]) of the width, exactly [m]
    give each count of the interval. *)
Theorem repetition_counts (depth : nat) (h : Heap) (value : Rule) (g : Random) :
  ((randint 0 START_LIMIT g).1 ≤ 5
   ∧ ∀ s g',
       gen (S depth) h (NoneOrMoreRule value) g = Ok (Some s, g')
       ↔ ∃ outs,
           generations (gen depth h value) (randint 0 START_LIMIT g).1
             (randint 0 START_LIMIT g).2 outs g'
           ∧ length outs = (randint 0 START_LIMIT g).1
           ∧ s = String.concat "" outs)
  ∧ (1 ≤ (randint 1 PLUS_LIMIT g).1 ≤ 5
     ∧ ∀ s g',
         gen (S depth) h (OneOrMoreRule value) g = Ok (Some s, g')
         ↔ ∃ outs,
             generations (gen depth h value) (randint 1 PLUS_LIMIT g).1
               (randint 1 PLUS_LIMIT g).2 outs g'
             ∧ length outs = (randint 1 PLUS_LIMIT g).1
             ∧ s = String.concat "" outs)
  ∧ (∀ d c, d ≤ 5 → (randint 0 START_LIMIT (mkRandom (λ _, d) c)).1 = d)
  ∧ (∀ d c, d ≤ 4 → (randint 1 PLUS_LIMIT (mkRandom (λ _, d) c)).1 = 1 + d)
  ∧ randint 0 START_LIMIT g = (raw g (cursor g) mod 6, advance g)
  ∧ randint 1 PLUS_LIMIT g = (1 + raw g (cursor g) mod 5, advance g)
  ∧ (∀ n m c, n ≤ 5 →
       length (filter (λ d, (randint 0 START_LIMIT (mkRandom (λ _, d) c)).1 = n)
                 (seq 0 (6 * m))) = m)
  ∧ (∀ n m c, 1 ≤ n ≤ 5 →
       length (filter (λ d, (randint 1 PLUS_LIMIT (mkRandom (λ _, d) c)).1 = n)
                 (seq 0 (5 * m))) = m).
Proof.
  assert (∀ gen1 n g0 outs g', generations gen1 n g0 outs g' → length outs = n)
    as Hlen.
  { induction 1; simpl; congruence. }
  split_and!.
  - pose proof (randint_range 0 START_LIMIT g). unfold START_LIMIT in *. lia.
  - intros s g'. rewrite gen_NoneOrMoreRule, repeat_spec. split; intros (outs & Hgen & Hs); exists outs.
    + split_and!; [done | by eapply Hlen | done].
    + by destruct Hs.
  - pose proof (randint_range 1 PLUS_LIMIT g). unfold PLUS_LIMIT in *. lia.
  - pose proof (randint_range 1 PLUS_LIMIT g). unfold PLUS_LIMIT in *. lia.
  - intros s g'. rewrite gen_OneOrMoreRule, repeat_spec. split; intros (outs & Hgen & Hs); exists outs.
    + split_and!; [done | by eapply Hlen | done].
    + by destruct Hs.
  - intros d c Hd. by apply (randint_constant 0 START_LIMIT).
  - intros d c Hd. by apply (randint_constant 1 PLUS_LIMIT).
  - reflexivity.
  - reflexivity.
  - intros n m c Hn. apply (randint_uniform 0 START_LIMIT n m c).
    unfold START_LIMIT. lia.
  - intros n m c Hn. by apply (randint_uniform 1 PLUS_LIMIT n m c).
Qed.

End Repetition.

Lemma repetition_counts_witness :
  gen (H := plain_regex) 2 empty_heap
    (NoneOrMoreRule (LiteralRule (Some "ab"%string))) (mkRandom (λ _, 3) 0)
  = Ok (Some "ababab"%string, mkRandom (λ _, 3) 1)
  ∧ gen (H := plain_regex) 2 empty_heap
      (NoneOrMoreRule (LiteralRule (Some "ab"%string))) (mkRandom (λ _, 6) 0)
    = Ok (Some ""%string, mkRandom (λ _, 6) 1)
  ∧ gen (H := plain_regex) 2 empty_heap
      (OneOrMoreRule (LiteralRule (Some "ab"%string))) (mkRandom (λ _, 5) 0)
    = Ok (Some "ab"%string, mkRandom (λ _, 5) 1)
  ∧ (randint 0 START_LIMIT (mkRandom (λ _, 5) 0)).1 = 5
  ∧ (randint 1 PLUS_LIMIT (mkRandom (λ _, 4) 0)).1 = 1 + 4
  ∧ randint 0 START_LIMIT (mkRandom (λ n, 7 * n + 9) 2)
    = (5, mkRandom (λ n, 7 * n + 9) 3)
  ∧ randint 1 PLUS_LIMIT (mkRandom (λ n, 7 * n + 9) 2)
    = (4, mkRandom (λ n, 7 * n + 9) 3)
  ∧ length (filter (λ d, (randint 0 START_LIMIT (mkRandom (λ _, d) 0)).1 = 4)
              (seq 0 (6 * 3))) = 3
  ∧ length (filter (λ d, (randint 1 PLUS_LIMIT (mkRandom (λ _, d) 0)).1 = 1)
              (seq 0 (5 * 3))) = 3.
Proof.
  pose proof (repetition_counts (H := plain_regex) 1 empty_heap
                (LiteralRule (Some "ab"%string))) as Hspec.
  split_and!.
  - destruct (Hspec (mkRandom (λ _, 3) 0)) as ((_ & Hstar) & _).
    apply Hstar. exists ["ab"; "ab"; "ab"]%string.
    split_and!; [repeat econstructor | reflexivity | reflexivity].
  - destruct (Hspec (mkRandom (λ _, 6) 0)) as ((_ & Hstar) & _).
    apply Hstar. exists []. split_and!; [constructor | reflexivity | reflexivity].
  - destruct (Hspec (mkRandom (λ _, 5) 0)) as (_ & (_ & Hplus) & _).
    apply Hplus. exists ["ab"%string].
    split_and!; [repeat econstructor | reflexivity | reflexivity].
  - destruct (Hspec (mkRandom (λ _, 0) 0)) as (_ & _ & Hdraw & _).
    apply Hdraw. lia.
  - destruct (Hspec (mkRandom (λ _, 0) 0)) as (_ & _ & _ & Hdraw & _).
    apply Hdraw. lia.
  - destruct (Hspec (mkRandom (λ n, 7 * n + 9) 2))
      as (_ & _ & _ & _ & Hstar & _).
    exact Hstar.
  - destruct (Hspec (mkRandom (λ n, 7 * n + 9) 2))
      as (_ & _ & _ & _ & _ & Hplus & _).
    exact Hplus.
  - destruct (Hspec (mkRandom (λ _, 0) 0))
      as (_ & _ & _ & _ & _ & _ & Hcount & _).
    apply Hcount. lia.
  - destruct (Hspec (mkRandom (λ _, 0) 0))
      as (_ & _ & _ & _ & _ & _ & _ & Hcount).
    apply Hcount. lia.
Defined.

(** ** References are resolved when generating *)

Section LazyReferences.
Context `{RegexLib}.













End LazyReferences.


(** The grammar with the undefined reference is built; generation fails
    only on the draw that picks the reference. *)
Example main_undefined_reference :
  main (H := plain_regex) refers_to_missing false 1000 (mkRandom (λ _, 0) 0)
  = Ok "a"%string
  ∧ main (H := plain_regex) refers_to_missing false 1000 (mkRandom (λ _, 1) 0)
    = report_error_and_exit (msg_undefined (Some "missing"%string)).
Proof. split; by vm_compute. Qed.

(** ** Introspector *)

Section Introspector.
Context `{RegexLib}.

Lemma parse_bnf_tokens_inv tokens h root h' :
  parse_bnf_tokens tokens h = Ok (root, h') →
  ∃ self table,
    root = ReferenceRule self (Some "start"%string) (next_addr h)
    ∧ h' = mkHeap (<[next_addr h := table]> (dicts h)) (had_repr_call h) (S self)
    ∧ is_Some (table !! Some "start"%string).
Proof.
  unfold parse_bnf_tokens.
  destruct (parse_all_symbol_definitions tokens) as [definitions|]; [|done].
  simpl. unfold has_key. case_bool_decide as Hstart; [|done]. simpl.
  destruct (rules_loop _ _ _ _) as [[table next]|] eqn:Hloop; [|done].
  simpl. intros [= <- <-].
  apply rules_loop_table in Hloop as [_ Hkeys]; [|apply map_Forall_empty].
  exists next, table. split_and!; [done | done | apply Hkeys; by left].
Qed.

Lemma repr_each_flags repr1 values h items h' :
  (∀ v h0 s0 h0', repr1 v h0 = Ok (s0, h0') →
                  had_repr_call h0 ⊆ had_repr_call h0') →
  repr_each repr1 values h = Ok (items, h') →
  had_repr_call h ⊆ had_repr_call h'.
Proof.
  intros Hrepr. revert h items.
  induction values as [|v values IH]; intros h items; [by intros [= _ <-]|].
  simpl. destruct (repr1 v h) as [[s h1]|] eqn:Hv; [|done]. simpl.
  destruct (repr_each repr1 values h1) as [[ss h2]|] eqn:Hrest; [|done].
  simpl. intros [= _ <-]. apply Hrepr in Hv. apply IH in Hrest. set_solver.
Qed.

(** Printing only ever sets flags. *)
Lemma repr_flags depth rule h s h' :
  repr depth rule h = Ok (s, h') → had_repr_call h ⊆ had_repr_call h'.
Proof.
  revert rule h s h'. induction depth as [|depth IH]; intros rule h s h'; [done|].
  destruct rule as [value|value|values|values|self symbol context
                   |value|value|value]; cbn [repr].
  - destruct value; [|done]. by intros [= _ <-].
  - by intros [= _ <-].
  - destruct (repr_each _ values h) as [[items h1]|] eqn:Heach; [|done].
    simpl. intros [= _ <-]. by eapply repr_each_flags.
  - destruct (repr_each _ values h) as [[items h1]|] eqn:Heach; [|done].
    simpl. intros [= _ <-]. by eapply repr_each_flags.
  - case_bool_decide; [by intros [= _ <-]|].
    destruct (context_get _ context symbol) as [value|].
    + destruct (repr depth value _) as [[s1 h1]|] eqn:Hvalue; [|done].
      simpl. intros [= _ <-]. apply IH in Hvalue. simpl in Hvalue. set_solver.
    + intros [= _ <-]. simpl. set_solver.
  - destruct (repr depth value h) as [[s1 h1]|] eqn:Hvalue; [|done].
    simpl. intros [= _ <-]. by eapply IH.
  - destruct (repr depth value h) as [[s1 h1]|] eqn:Hvalue; [|done].
    simpl. intros [= _ <-]. by eapply IH.
  - destruct (repr depth value h) as [[s1 h1]|] eqn:Hvalue; [|done].
    simpl. intros [= _ <-]. by eapply IH.
Qed.

(** Every printed rule starts with the name of its class. *)
Lemma repr_head depth rule h s h' :
  repr depth rule h = Ok (s, h') →
  ∃ c rest, s = String c rest ∧ c ≠ "r"%char.
Proof.
  destruct depth as [|depth]; [done|].
  destruct rule as [value|value|values|values|self symbol context
                   |value|value|value]; cbn [repr].
  - destruct value; [|done]. intros [= <- _]. by eexists _, _.
  - intros [= <- _]. by eexists _, _.
  - destruct (repr_each _ values h) as [[items h1]|]; [|done].
    intros [= <- _]. by eexists _, _.
  - destruct (repr_each _ values h) as [[items h1]|]; [|done].
    intros [= <- _]. by eexists _, _.
  - case_bool_decide; [intros [= <- _]; by eexists _, _|].
    destruct (context_get _ context symbol) as [value|].
    + destruct (repr depth value _) as [[s1 h1]|]; [|done].
      intros [= <- _]. by eexists _, _.
    + intros [= <- _]. by eexists _, _.
  - destruct (repr depth value h) as [[s1 h1]|]; [|done].
    intros [= <- _]. by eexists _, _.
  - destruct (repr depth value h) as [[s1 h1]|]; [|done].
    intros [= <- _]. by eexists _, _.
  - destruct (repr depth value h) as [[s1 h1]|]; [|done].
    intros [= <- _]. by eexists _, _.
Qed.

(** C1 (code at the failing input): for every grammar text that parses,
    printing the tree a second time does not return what the first call
    returned.  The first call leaves the flag of the entry point set, so
    the second call returns the placeholder for a repeated visit, which
    the first call never returns. *)
Theorem repr_second_call_differs
    (bnf : string) (root : Rule) (h h1 : Heap) (depth : nat) (s1 : string) :
  parse_bnf bnf empty_heap = Ok (root, h) →
  repr depth root h = Ok (s1, h1) →
  repr depth root h1
  = Ok (msg_reference_to_self (Some "start"%string), h1)
  ∧ s1 ≠ msg_reference_to_self (Some "start"%string).
Proof.
  unfold parse_bnf. destruct (lex_bnf bnf) as [tokens|]; [|done]. simpl.
  intros (self & table & -> & -> & [value Hstart])%parse_bnf_tokens_inv.
  destruct depth as [|depth]; [done|]. cbn [repr]. simpl had_repr_call.
  rewrite bool_decide_eq_false_2 by set_solver.
  unfold context_get. simpl. rewrite lookup_insert_eq. simpl. rewrite Hstart.
  destruct (repr depth value _) as [[s h2]|] eqn:Hvalue; [|done]. simpl.
  intros [= <- <-]. split.
  - apply repr_flags in Hvalue. simpl in Hvalue.
    rewrite bool_decide_eq_true_2 by set_solver. done.
  - apply repr_head in Hvalue as (c & rest & -> & Hc).
    unfold msg_reference_to_self. simpl. intros [= ->]. done.
Qed.

End Introspector.

Lemma repr_second_call_differs_witness :
  repr 1000 (root_of start_x)
    (set_had_repr_call 1 (heap_of start_x))
  = Ok (msg_reference_to_self (Some "start"%string),
        set_had_repr_call 1 (heap_of start_x))
  ∧ ("ReferenceRule(<start> with LiteralRule(" +:+ quoted "x" +:+ "))")%string
    ≠ msg_reference_to_self (Some "start"%string).
Proof.
  apply (repr_second_call_differs (H := plain_regex) start_x
           (root_of start_x) (heap_of start_x)
           (set_had_repr_call 1 (heap_of start_x)) 1000);
    by vm_compute.
Defined.

(** The two calls on the tree of [<start> ::= "x" ;]. *)
Example repr_twice_start_x :
  ('(s1, h1) ← repr 1000 (root_of start_x) (heap_of start_x);
   '(s2, _) ← repr 1000 (root_of start_x) h1;
   Ok (s1, s2))
  = Ok (("ReferenceRule(<start> with LiteralRule(" +:+ quoted "x" +:+ "))")%string,
        "ReferenceRule(<start> with reference to self)"%string).
Proof. by vm_compute. Qed.

(** * Further properties *)

(** ** Tokenizer: comments, symbols, literals, regular expressions *)

(** X1: a comment runs from [#] to the end of the line and leaves no
    token: the tokenizer goes on after the newline as if the comment were
    not there, and a comment that the text ends in ends the token list. *)
Theorem comment_is_skipped (body rest : string)
    (symbol_name : option string) (tokens : list Token) :
  char_in newline body = false →
  lex_loop (String "#" (body +:+ String newline rest)) symbol_name tokens
  = lex_loop rest symbol_name tokens
  ∧ lex_loop (String "#" body) symbol_name tokens = Ok tokens.
Proof.
  intros Hbody.
  change (lex_loop (String "#" (body +:+ String newline rest)) symbol_name tokens)
    with (lex_comment (body +:+ String newline rest) symbol_name tokens).
  change (lex_loop (String "#" body) symbol_name tokens)
    with (lex_comment body symbol_name tokens).
  induction body as [|c body IH]; [done|].
  apply char_in_cons_false in Hbody as [Hc Hbody].
  simpl. rewrite Hc. by apply IH.
Qed.

Lemma comment_is_skipped_witness :
  lex_loop (String "#" (" a <comment> ::= " +:+ String newline "<a> ;")) None []
  = lex_loop "<a> ;" None []
  ∧ lex_loop (String "#" " a <comment> ::= ") None [] = Ok [].
Proof.
  apply (comment_is_skipped " a <comment> ::= " "<a> ;" None []). reflexivity.
Defined.

Lemma all_in_cons c s allowed :
  all_in (String c s) allowed = true →
  char_in c allowed = true ∧ all_in s allowed = true.
Proof. simpl. by intros [? ?]%andb_true_iff. Qed.

Lemma all_in_app s1 s2 allowed :
  all_in s1 allowed = true → all_in s2 allowed = true →
  all_in (s1 +:+ s2) allowed = true.
Proof.
  intros H1 H2. induction s1 as [|c s1 IH]; [done|].
  apply all_in_cons in H1 as [Hc H1]. simpl. by rewrite Hc, IH.
Qed.

Lemma append_cons c (s t : string) : String c s +:+ t = String c (s +:+ t).
Proof. reflexivity. Qed.

Lemma lex_symbol_cons c rest symbol_name tokens :
  lex_symbol (String c rest) symbol_name tokens
  = if Ascii.eqb c ">" then
      lex_loop rest (Some symbol_name) (push tokens SYMBOL (Some symbol_name))
    else if negb (char_in c ALLOWED_SYMBOL_NAME_CHARACTERS) then
      report_error_and_exit (msg_bad_symbol_char c)
    else lex_symbol rest (symbol_name +:+ str c) tokens.
Proof. reflexivity. Qed.

Lemma allowed_not_gt c :
  char_in c ALLOWED_SYMBOL_NAME_CHARACTERS = true → Ascii.eqb c ">" = false.
Proof.
  intros Hc. destruct (Ascii.eqb c ">") eqn:Hgt; [|done].
  apply Ascii.eqb_eq in Hgt as ->. discriminate.
Qed.

Lemma lex_symbol_name name rest symbol_name tokens :
  all_in name ALLOWED_SYMBOL_NAME_CHARACTERS = true →
  lex_symbol (name +:+ String ">" rest) symbol_name tokens
  = lex_loop rest (Some (symbol_name +:+ name))
      (push tokens SYMBOL (Some (symbol_name +:+ name))).
Proof.
  revert symbol_name. induction name as [|c name IH]; intros symbol_name Hname.
  - simpl. by rewrite append_nil_r.
  - apply all_in_cons in Hname as [Hc Hname].
    rewrite append_cons, lex_symbol_cons, (allowed_not_gt c Hc), Hc. simpl.
    rewrite IH by done. by rewrite append_assoc.
Qed.

Lemma lex_symbol_bad_char name c rest symbol_name tokens :
  all_in name ALLOWED_SYMBOL_NAME_CHARACTERS = true →
  char_in c ALLOWED_SYMBOL_NAME_CHARACTERS = false → c ≠ ">"%char →
  lex_symbol (name +:+ String c rest) symbol_name tokens
  = report_error_and_exit (msg_bad_symbol_char c).
Proof.
  intros Hname Hc Hgt. revert symbol_name.
  induction name as [|d name IH]; intros symbol_name.
  - change ("" +:+ String c rest) with (String c rest).
    rewrite lex_symbol_cons, Hc. simpl.
    destruct (Ascii.eqb c ">") eqn:E; [|done]. by apply Ascii.eqb_eq in E.
  - apply all_in_cons in Hname as [Hd Hname].
    rewrite append_cons, lex_symbol_cons, (allowed_not_gt d Hd), Hd. simpl.
    by apply IH.
Qed.

(** X2: a name made of letters, digits, [-] and [_] between [<] and [>]
    becomes one [SYMBOL] token carrying the name (the empty name too), and
    lexing goes on behind the [>].  The first character outside that set
    stops the tokenizer with the reported error quoting the character; a
    name the text ends in is reported as unterminated. *)
Theorem symbol_is_lexed (name rest : string)
    (symbol_name : option string) (tokens : list Token) :
  all_in name ALLOWED_SYMBOL_NAME_CHARACTERS = true →
  lex_loop (String "<" (name +:+ String ">" rest)) symbol_name tokens
  = lex_loop rest (Some name) (push tokens SYMBOL (Some name))
  ∧ lex_loop (String "<" name) symbol_name tokens
    = report_error_and_exit (msg_unterminated_rule_name name)
  ∧ ∀ c, char_in c ALLOWED_SYMBOL_NAME_CHARACTERS = false → c ≠ ">"%char →
         lex_loop (String "<" (name +:+ String c rest)) symbol_name tokens
         = report_error_and_exit (msg_bad_symbol_char c).
Proof.
  intros Hname. split_and!.
  - change (lex_loop (String "<" (name +:+ String ">" rest)) symbol_name tokens)
      with (lex_symbol (name +:+ String ">" rest) "" tokens).
    by rewrite lex_symbol_name.
  - change (lex_loop (String "<" name) symbol_name tokens)
      with (lex_symbol name "" tokens).
    rewrite <- (append_nil_r name) at 1.
    assert (∀ acc, lex_symbol (name +:+ "") acc tokens
                   = report_error_and_exit
                       (msg_unterminated_rule_name (acc +:+ name))) as Hend.
    { clear symbol_name. induction name as [|c name IH]; intros acc.
      - simpl. by rewrite append_nil_r.
      - apply all_in_cons in Hname as [Hc Hname].
        rewrite append_cons, lex_symbol_cons, (allowed_not_gt c Hc), Hc. simpl.
        rewrite IH by done. by rewrite append_assoc. }
    apply Hend.
  - intros c Hc Hgt.
    change (lex_loop (String "<" (name +:+ String c rest)) symbol_name tokens)
      with (lex_symbol (name +:+ String c rest) "" tokens).
    by apply lex_symbol_bad_char.
Qed.

Lemma symbol_is_lexed_witness :
  lex_loop (String "<" ("one-or_2" +:+ String ">" " ::=")) None []
  = lex_loop " ::=" (Some "one-or_2"%string)
      (push [] SYMBOL (Some "one-or_2"%string))
  ∧ lex_loop (String "<" "one-or_2") None []
    = report_error_and_exit (msg_unterminated_rule_name "one-or_2")
  ∧ lex_loop (String "<" ("one-or_2" +:+ String " " ">")) None []
    = report_error_and_exit (msg_bad_symbol_char " ").
Proof.
  destruct (symbol_is_lexed "one-or_2" " ::=" None [] eq_refl) as (H1 & H2 & _).
  destruct (symbol_is_lexed "one-or_2" ">" None [] eq_refl) as (_ & _ & H3).
  split_and!; [exact H1 | exact H2 | apply H3; [reflexivity | discriminate]].
Defined.

Lemma lex_literal_cons q c rest value symbol_name tokens :
  lex_literal q (String c rest) value symbol_name tokens
  = if Ascii.eqb c q then
      lex_loop rest symbol_name (push tokens LITERAL (Some value))
    else if Ascii.eqb c backslash then
      match rest with
      | EmptyString => Err IndexError
      | String e rest' =>
        if Ascii.eqb e "n" then
          lex_literal q rest' (value +:+ str newline) symbol_name tokens
        else if Ascii.eqb e "t" then
          lex_literal q rest' (value +:+ str tab) symbol_name tokens
        else if Ascii.eqb e backslash then
          lex_literal q rest' (value +:+ str backslash) symbol_name tokens
        else report_error_and_exit (msg_bad_escape e)
      end
    else lex_literal q rest (value +:+ str c) symbol_name tokens.
Proof. reflexivity. Qed.

Lemma lex_literal_escaped q s rest value symbol_name tokens :
  q ≠ backslash → char_in q s = false →
  lex_literal q (escape_literal s +:+ String q rest) value symbol_name tokens
  = lex_loop rest symbol_name (push tokens LITERAL (Some (value +:+ s))).
Proof.
  intros Hq. revert value. induction s as [|c s IH]; intros value Hs.
  - change (escape_literal "" +:+ String q rest) with (String q rest).
    by rewrite lex_literal_cons, Ascii.eqb_refl, append_nil_r.
  - apply char_in_cons_false in Hs as [Hc Hs].
    assert (Ascii.eqb backslash q = false) as Hbq.
    { apply Ascii.eqb_neq. congruence. }
    assert (value +:+ String c s = (value +:+ str c) +:+ s) as ->
      by by rewrite append_assoc.
    cbn [escape_literal].
    destruct (Ascii.eqb c backslash) eqn:Hb;
      [|destruct (Ascii.eqb c newline) eqn:Hn;
        [|destruct (Ascii.eqb c tab) eqn:Ht]];
      rewrite !append_cons, lex_literal_cons.
    + apply Ascii.eqb_eq in Hb as ->. rewrite Hbq, Ascii.eqb_refl.
      change (Ascii.eqb backslash "n") with false.
      change (Ascii.eqb backslash "t") with false.
      cbv iota. by apply IH.
    + apply Ascii.eqb_eq in Hn as ->. rewrite Hbq, Ascii.eqb_refl.
      change (Ascii.eqb "n" "n") with true. cbv iota. by apply IH.
    + apply Ascii.eqb_eq in Ht as ->. rewrite Hbq, Ascii.eqb_refl.
      change (Ascii.eqb "n" "n") with true.
      change (Ascii.eqb "t" "n") with false.
      change (Ascii.eqb "t" "t") with true. cbv iota. by apply IH.
    + rewrite Hc, Hb. by apply IH.
Qed.

(** X3: every string without the quote character can be written as a
    literal: with backslash, newline and tab written as [\\], [\n] and
    [\t] between two quotes of the same kind, the tokenizer gives back one
    [LITERAL] token carrying the string, and goes on behind the closing
    quote. *)
Theorem literal_round_trip (q : ascii) (s rest : string)
    (symbol_name : option string) (tokens : list Token) :
  q = dquote ∨ q = squote →
  char_in q s = false →
  lex_loop (String q (escape_literal s +:+ String q rest)) symbol_name tokens
  = lex_loop rest symbol_name (push tokens LITERAL (Some s)).
Proof.
  intros Hq Hs. rewrite lex_loop_quote by done.
  rewrite lex_literal_escaped; [done | by destruct Hq as [-> | ->] | done].
Qed.

Lemma literal_round_trip_witness :
  lex_loop (String squote (escape_literal
                             (String tab (String backslash (String dquote "a b")))
                           +:+ String squote " ;")) None []
  = lex_loop " ;" None
      (push [] LITERAL (Some (String tab (String backslash (String dquote "a b"))))).
Proof.
  apply (literal_round_trip squote
           (String tab (String backslash (String dquote "a b"))) " ;" None []);
    [by right | reflexivity].
Defined.

Lemma lex_regex_cons c rest regex symbol_name tokens :
  lex_regex (String c rest) regex symbol_name tokens
  = if Ascii.eqb c "/" then
      lex_loop rest symbol_name (push tokens REGEX (Some regex))
    else if Ascii.eqb c squote then
      match rest with
      | EmptyString => report_error_and_exit "broken escape sequence in regex"
      | String e rest' =>
        if Ascii.eqb e "/" then
          lex_regex rest' (regex +:+ "/") symbol_name tokens
        else if Ascii.eqb e squote then
          lex_regex rest' (regex +:+ str squote) symbol_name tokens
        else report_error_and_exit "unrecognized escape sequence in regex"
      end
    else lex_regex rest (regex +:+ str c) symbol_name tokens.
Proof. reflexivity. Qed.

Lemma lex_regex_escaped s rest regex symbol_name tokens :
  lex_regex (escape_regex s +:+ String "/" rest) regex symbol_name tokens
  = lex_loop rest symbol_name (push tokens REGEX (Some (regex +:+ s))).
Proof.
  revert regex. induction s as [|c s IH]; intros regex.
  - change (escape_regex "" +:+ String "/" rest) with (String "/" rest).
    by rewrite lex_regex_cons, Ascii.eqb_refl, append_nil_r.
  - assert (regex +:+ String c s = (regex +:+ str c) +:+ s) as ->
      by by rewrite append_assoc.
    cbn [escape_regex].
    destruct (Ascii.eqb c "/") eqn:Hs; [|destruct (Ascii.eqb c squote) eqn:Hq];
      rewrite !append_cons, lex_regex_cons.
    + apply Ascii.eqb_eq in Hs as ->.
      change (Ascii.eqb squote "/") with false. rewrite !Ascii.eqb_refl.
      by apply IH.
    + apply Ascii.eqb_eq in Hq as ->.
      change (Ascii.eqb squote "/") with false. rewrite !Ascii.eqb_refl.
      by apply IH.
    + rewrite Hs, Hq. by apply IH.
Qed.

(** X4: every pattern can be written as a regular expression: with [/]
    and the single quote each preceded by a single quote, between two
    slashes, the tokenizer gives back one [REGEX] token carrying the
    pattern; a single quote the text ends in is reported as a broken
    escape, and one followed by any other character as an unrecognized
    escape. *)
Theorem regex_round_trip (s rest : string)
    (symbol_name : option string) (tokens : list Token) :
  lex_loop (String "/" (escape_regex s +:+ String "/" rest)) symbol_name tokens
  = lex_loop rest symbol_name (push tokens REGEX (Some s))
  ∧ lex_loop (String "/" (escape_regex s +:+ str squote)) symbol_name tokens
    = report_error_and_exit "broken escape sequence in regex"
  ∧ ∀ c, c ≠ "/"%char → c ≠ squote →
         lex_loop (String "/" (escape_regex s +:+ String squote (String c rest)))
           symbol_name tokens
         = report_error_and_exit "unrecognized escape sequence in regex".
Proof.
  assert (∀ tail regex,
            lex_regex (escape_regex s +:+ tail) regex symbol_name tokens
            = lex_regex tail (regex +:+ s) symbol_name tokens) as Hbody.
  { intros tail. induction s as [|c s IH]; intros regex.
    - by rewrite append_nil_r.
    - assert (regex +:+ String c s = (regex +:+ str c) +:+ s) as ->
        by by rewrite append_assoc.
      cbn [escape_regex].
      destruct (Ascii.eqb c "/") eqn:Hs; [|destruct (Ascii.eqb c squote) eqn:Hq];
        rewrite !append_cons, lex_regex_cons.
      + apply Ascii.eqb_eq in Hs as ->.
        change (Ascii.eqb squote "/") with false. rewrite !Ascii.eqb_refl.
        by apply IH.
      + apply Ascii.eqb_eq in Hq as ->.
        change (Ascii.eqb squote "/") with false. rewrite !Ascii.eqb_refl.
        by apply IH.
      + rewrite Hs, Hq. by apply IH. }
  split_and!.
  - change (lex_loop (String "/" ?body) symbol_name tokens)
      with (lex_regex body "" symbol_name tokens).
    apply lex_regex_escaped.
  - change (lex_loop (String "/" ?body) symbol_name tokens)
      with (lex_regex body "" symbol_name tokens).
    by rewrite Hbody.
  - intros c Hslash Hquote.
    change (lex_loop (String "/" ?body) symbol_name tokens)
      with (lex_regex body "" symbol_name tokens).
    rewrite Hbody, lex_regex_cons.
    change (Ascii.eqb squote "/") with false. rewrite Ascii.eqb_refl.
    apply Ascii.eqb_neq in Hslash, Hquote. by rewrite Hslash, Hquote.
Qed.

Lemma regex_round_trip_witness :
  lex_loop (String "/" (escape_regex "a/b" +:+ String squote (String "x" "/")))
    None []
  = report_error_and_exit "unrecognized escape sequence in regex".
Proof.
  destruct (regex_round_trip "a/b" "/" None []) as (_ & _ & Hbad).
  apply Hbad; [discriminate | discriminate].
Defined.

Lemma lex_loop_cons c rest symbol_name tokens :
  lex_loop (String c rest) symbol_name tokens
  = if Ascii.eqb c "<" then lex_symbol rest "" tokens
    else if Ascii.eqb c ":" then
      match rest with
      | String ":" (String "=" rest') =>
          lex_loop rest' symbol_name (push tokens DEFINE None)
      | _ => report_error_and_exit "broken rule definition"
      end
    else if Ascii.eqb c dquote then lex_literal dquote rest "" symbol_name tokens
    else if Ascii.eqb c squote then lex_literal squote rest "" symbol_name tokens
    else if Ascii.eqb c "/" then lex_regex rest "" symbol_name tokens
    else if Ascii.eqb c ";" then lex_loop rest symbol_name (push tokens SEMICOLON None)
    else if Ascii.eqb c "|" then lex_loop rest symbol_name (push tokens ALTER None)
    else if Ascii.eqb c "(" then lex_loop rest symbol_name (push tokens OPAREN None)
    else if Ascii.eqb c ")" then lex_loop rest symbol_name (push tokens CPAREN None)
    else if Ascii.eqb c "*" then lex_loop rest symbol_name (push tokens STAR None)
    else if Ascii.eqb c "+" then lex_loop rest symbol_name (push tokens PLUS None)
    else if Ascii.eqb c "?" then lex_loop rest symbol_name (push tokens OPTION None)
    else if Ascii.eqb c "#" then lex_comment rest symbol_name tokens
    else if char_in c whitespace then lex_loop rest symbol_name tokens
    else report_error_and_exit (msg_unrecognized c).
Proof. reflexivity. Qed.

Lemma lex_comment_cons c rest symbol_name tokens :
  lex_comment (String c rest) symbol_name tokens
  = if Ascii.eqb c newline then lex_loop rest symbol_name tokens
    else lex_comment rest symbol_name tokens.
Proof. reflexivity. Qed.

Lemma push_lexed tokens k v :
  Forall lexed tokens → lexed (mkToken k v) → Forall lexed (push tokens k v).
Proof. intros Htokens Ht. apply Forall_app. split; [done | by constructor]. Qed.

(** The five loops of the tokenizer only ever add tokens of the shape
    [lexed]; the induction is on a bound of the length of the text, since
    an escape takes two characters at once. *)
Lemma lex_loops_lexed (n : nat) (bnf : string) :
  String.length bnf ≤ n →
  (∀ symbol_name tokens result,
     Forall lexed tokens → lex_loop bnf symbol_name tokens = Ok result →
     Forall lexed result)
  ∧ (∀ name tokens result,
       all_in name ALLOWED_SYMBOL_NAME_CHARACTERS = true →
       Forall lexed tokens → lex_symbol bnf name tokens = Ok result →
       Forall lexed result)
  ∧ (∀ q value symbol_name tokens result,
       Forall lexed tokens →
       lex_literal q bnf value symbol_name tokens = Ok result →
       Forall lexed result)
  ∧ (∀ regex symbol_name tokens result,
       Forall lexed tokens →
       lex_regex bnf regex symbol_name tokens = Ok result →
       Forall lexed result)
  ∧ (∀ symbol_name tokens result,
       Forall lexed tokens → lex_comment bnf symbol_name tokens = Ok result →
       Forall lexed result).
Proof.
  revert bnf. induction n as [|n IH]; intros bnf Hlen.
  { destruct bnf; [|simpl in Hlen; lia].
    split_and!; intros; simpl in *; unfold report_error_and_exit in *;
      repeat case_match; by simplify_eq. }
  destruct bnf as [|c rest].
  { split_and!; intros; simpl in *; unfold report_error_and_exit in *;
      repeat case_match; by simplify_eq. }
  simpl in Hlen.
  destruct (IH rest ltac:(lia)) as (IHloop & IHsym & IHlit & IHre & IHcom).
  assert (∀ e rest', rest = String e rest' →
            (∀ q value symbol_name tokens result,
               Forall lexed tokens →
               lex_literal q rest' value symbol_name tokens = Ok result →
               Forall lexed result)
            ∧ (∀ regex symbol_name tokens result,
                 Forall lexed tokens →
                 lex_regex rest' regex symbol_name tokens = Ok result →
                 Forall lexed result)
            ∧ (∀ e' rest'', rest' = String e' rest'' →
                 ∀ symbol_name tokens result,
                   Forall lexed tokens →
                   lex_loop rest'' symbol_name tokens = Ok result →
                   Forall lexed result)) as IH2.
  { intros e rest' ->. simpl in Hlen.
    destruct (IH rest' ltac:(lia)) as (_ & _ & Hlit & Hre & _).
    split_and!; [done | done |].
    intros e' rest'' ->. simpl in Hlen.
    by destruct (IH rest'' ltac:(lia)) as (Hloop & _). }
  split_and!.
  - intros symbol_name tokens result Htokens. rewrite lex_loop_cons.
    repeat (destruct (Ascii.eqb c _);
            [first [ by (eapply IHloop, push_lexed)
                   | by (eapply IHsym)
                   | by (eapply IHlit)
                   | by (eapply IHre)
                   | by (eapply IHcom)
                   | idtac ] |]).
    + destruct rest as [|e rest']; [done|].
      destruct (IH2 e rest' eq_refl) as (_ & _ & Hloop2).
      destruct rest' as [|e' rest'']; [by repeat case_match|].
      specialize (Hloop2 e' rest'' eq_refl).
      repeat case_match; try done. by eapply Hloop2, push_lexed.
    + destruct (char_in c whitespace); [by eapply IHloop | done].
  - intros name tokens result Hname Htokens. rewrite lex_symbol_cons.
    destruct (Ascii.eqb c ">").
    { eapply IHloop, push_lexed; [done|]. by exists name. }
    destruct (char_in c ALLOWED_SYMBOL_NAME_CHARACTERS) eqn:Hc; [|done].
    simpl. eapply IHsym; [|done]. apply all_in_app; [done|].
    change (char_in c ALLOWED_SYMBOL_NAME_CHARACTERS && true = true).
    by rewrite Hc.
  - intros q value symbol_name tokens result Htokens. rewrite lex_literal_cons.
    destruct (Ascii.eqb c q).
    { apply IHloop, push_lexed; [done | by eexists]. }
    destruct (Ascii.eqb c backslash); [|by eapply IHlit].
    destruct rest as [|e rest']; [done|].
    destruct (IH2 e rest' eq_refl) as (Hlit2 & _).
    repeat (destruct (Ascii.eqb e _); [by eapply Hlit2|]). done.
  - intros regex symbol_name tokens result Htokens. rewrite lex_regex_cons.
    destruct (Ascii.eqb c "/").
    { apply IHloop, push_lexed; [done | by eexists]. }
    destruct (Ascii.eqb c squote); [|by eapply IHre].
    destruct rest as [|e rest']; [done|].
    destruct (IH2 e rest' eq_refl) as (_ & Hre2 & _).
    repeat (destruct (Ascii.eqb e _); [by eapply Hre2|]). done.
  - intros symbol_name tokens result Htokens. rewrite lex_comment_cons.
    destruct (Ascii.eqb c newline); [by eapply IHloop | by eapply IHcom].
Qed.

(** X5: every token the tokenizer returns has the shape it was made
    with: a [SYMBOL] carries a name of letters, digits, [-] and [_]; a
    [LITERAL] and a [REGEX] carry a string; the other kinds carry nothing. *)
Theorem lex_bnf_tokens_lexed (bnf : string) (tokens : list Token) :
  lex_bnf bnf = Ok tokens → Forall lexed tokens.
Proof.
  intros Hlex.
  destruct (lex_loops_lexed (String.length bnf) bnf (le_n _)) as (Hloop & _).
  by eapply Hloop.
Qed.

Lemma lex_bnf_tokens_lexed_witness : Forall lexed (tokens_of two_rules).
Proof. by apply (lex_bnf_tokens_lexed two_rules). Defined.

(** ** Definition extractor: spans, errors, the table it returns *)

Lemma rule_tokens_loop_body rule_symbol rule_tokens body rest defs :
  Forall (λ t, kind t ≠ SEMICOLON) body →
  rule_tokens_loop rule_symbol rule_tokens (body ++ rest) defs
  = rule_tokens_loop rule_symbol (rule_tokens ++ body) rest defs.
Proof.
  intros Hbody. revert rule_tokens.
  induction Hbody as [|t body Ht _ IH]; intros rule_tokens.
  - by rewrite app_nil_r.
  - simpl. destruct (decide (kind t = SEMICOLON)); [done|].
    rewrite IH. by rewrite <- app_assoc.
Qed.

(** X6: a span [SYMBOL DEFINE body SEMICOLON] for a symbol that is not
    defined yet, after a stream that is extracted without error, adds
    exactly one entry at the end of the table: the symbol with the tokens
    of the body (there may be none), in order. *)
Theorem definition_is_appended
    (pre body : list Token) (symbol define semi : Token)
    (defs : DictOfSymbolDefinitions) :
  kind symbol = SYMBOL → kind define = DEFINE → kind semi = SEMICOLON →
  Forall (λ t, kind t ≠ SEMICOLON) body →
  parse_all_symbol_definitions pre = Ok defs →
  value symbol ∉ defs.*1 →
  parse_all_symbol_definitions (pre ++ symbol :: define :: body ++ [semi])
  = Ok (defs ++ [(value symbol, body)]).
Proof.
  intros Hsym Hdef Hsemi Hbody Hpre Hnew.
  unfold parse_all_symbol_definitions in *.
  rewrite (definitions_loop_app _ _ _ _ _ Hpre). simpl.
  destruct (decide (kind symbol = DEFINE)); [congruence|].
  destruct (decide (kind define = DEFINE)); [|done].
  destruct (decide (kind symbol = SYMBOL)); [|done].
  rewrite rule_tokens_loop_body by done. simpl.
  destruct (decide (kind semi = SEMICOLON)); [|done].
  unfold has_key. by rewrite bool_decide_eq_false_2.
Qed.

Lemma definition_is_appended_witness :
  let a := mkToken SYMBOL (Some "a"%string) in
  let b := mkToken SYMBOL (Some "b"%string) in
  let define := mkToken DEFINE None in
  let semi := mkToken SEMICOLON None in
  let x := mkToken LITERAL (Some "x"%string) in
  parse_all_symbol_definitions
    ([a; define; x; semi; x] ++ b :: define :: [a; define; x] ++ [semi])
  = Ok ([(Some "a"%string, [x])] ++ [(Some "b"%string, [a; define; x])]).
Proof.
  intros a b define semi x.
  apply (definition_is_appended [a; define; x; semi; x] [a; define; x]
           b define semi [(Some "a"%string, [x])]);
    [reflexivity | reflexivity | reflexivity
    | repeat constructor; discriminate | reflexivity |].
  simpl. intros Hin. apply list_elem_of_singleton in Hin. discriminate.
Defined.

(** X7: a definition that is opened and has no semicolon behind it is
    the reported missing-semicolon error, whatever its tokens are. *)
Theorem missing_semicolon_is_fatal
    (pre body : list Token) (symbol define : Token)
    (defs : DictOfSymbolDefinitions) :
  kind symbol = SYMBOL → kind define = DEFINE →
  Forall (λ t, kind t ≠ SEMICOLON) body →
  parse_all_symbol_definitions pre = Ok defs →
  parse_all_symbol_definitions (pre ++ symbol :: define :: body)
  = report_error_and_exit "missing semicolon for rule definition".
Proof.
  intros Hsym Hdef Hbody Hpre. unfold parse_all_symbol_definitions in *.
  rewrite (definitions_loop_app _ _ _ _ _ Hpre). simpl.
  destruct (decide (kind symbol = DEFINE)); [congruence|].
  destruct (decide (kind define = DEFINE)); [|done].
  destruct (decide (kind symbol = SYMBOL)); [|done].
  rewrite <- (app_nil_r body). by rewrite rule_tokens_loop_body.
Qed.

Lemma missing_semicolon_is_fatal_witness :
  let a := mkToken SYMBOL (Some "a"%string) in
  let define := mkToken DEFINE None in
  let x := mkToken LITERAL (Some "x"%string) in
  parse_all_symbol_definitions ([] ++ a :: define :: [x; a; define; x])
  = report_error_and_exit "missing semicolon for rule definition".
Proof.
  intros a define x.
  apply (missing_semicolon_is_fatal [] [x; a; define; x] a define []);
    [reflexivity | reflexivity | repeat constructor; discriminate | reflexivity].
Defined.

(** X8: a [DEFINE] outside a definition whose previous token is not a
    [SYMBOL] (or that has no previous token) is the reported
    missing-symbol error. *)
Theorem missing_symbol_is_fatal
    (pre rest : list Token) (define : Token) (defs : DictOfSymbolDefinitions) :
  kind define = DEFINE →
  parse_all_symbol_definitions pre = Ok defs →
  (∀ p, last_token None pre = Some p → kind p ≠ SYMBOL) →
  parse_all_symbol_definitions (pre ++ define :: rest)
  = report_error_and_exit "missing symbol for definition".
Proof.
  intros Hdef Hpre Hprev. unfold parse_all_symbol_definitions in *.
  rewrite (definitions_loop_app _ _ _ _ _ Hpre). simpl.
  destruct (decide (kind define = DEFINE)); [|done].
  destruct (last_token None pre) as [p|]; [|done].
  destruct (decide (kind p = SYMBOL)) as [Hp|]; [|done].
  by destruct (Hprev p eq_refl).
Qed.

Lemma missing_symbol_is_fatal_witness :
  let a := mkToken SYMBOL (Some "a"%string) in
  let define := mkToken DEFINE None in
  let semi := mkToken SEMICOLON None in
  let x := mkToken LITERAL (Some "x"%string) in
  parse_all_symbol_definitions ([] ++ define :: [x; semi])
  = report_error_and_exit "missing symbol for definition"
  ∧ parse_all_symbol_definitions ([a; define; x; semi] ++ define :: [x; semi])
    = report_error_and_exit "missing symbol for definition".
Proof.
  intros a define semi x. split.
  - apply (missing_symbol_is_fatal [] [x; semi] define []);
      [reflexivity | reflexivity | discriminate].
  - apply (missing_symbol_is_fatal [a; define; x; semi] [x; semi] define
             [(Some "a"%string, [x])]);
      [reflexivity | reflexivity |].
    simpl. by intros p [= <-].
Defined.

(** The two loops of the extractor keep the table free of duplicates, and
    fill it from the tokens they walk over. *)
Lemma extractor_loops_invariant (from : Token → Prop) (tokens : list Token) :
  let good (defs : DictOfSymbolDefinitions) :=
    NoDup defs.*1
    ∧ Forall (λ d, (∃ t, from t ∧ kind t = SYMBOL ∧ value t = d.1)
                   ∧ Forall (λ t, from t ∧ kind t ≠ SEMICOLON) d.2) defs in
  Forall from tokens →
  (∀ prev defs result,
     (∀ p, prev = Some p → from p) → good defs →
     definitions_loop prev tokens defs = Ok result → good result)
  ∧ (∀ symbol rule_tokens defs result,
       from symbol → kind symbol = SYMBOL →
       Forall (λ t, from t ∧ kind t ≠ SEMICOLON) rule_tokens → good defs →
       rule_tokens_loop (value symbol) rule_tokens tokens defs = Ok result →
       good result).
Proof.
  intros good Htokens.
  induction Htokens as [|t tokens Ht _ [IHd IHr]]; split.
  - by intros prev defs result _ Hdefs [= <-].
  - done.
  - intros prev defs result Hprev Hdefs. simpl.
    destruct (decide (kind t = DEFINE)).
    + destruct prev as [p|]; [|done].
      destruct (decide (kind p = SYMBOL)); [|done].
      apply IHr; [by apply Hprev | done | constructor | done].
    + apply IHd; [|done]. by intros p [= <-].
  - intros symbol rule_tokens defs result Hfrom Hsym Hbody Hdefs. simpl.
    destruct (decide (kind t = SEMICOLON)).
    + unfold has_key. case_bool_decide as Hkey; [done|].
      apply IHd; [by intros p [= <-]|].
      destruct Hdefs as [Hnodup Hall]. split.
      * rewrite fmap_app. apply NoDup_app. split_and!; [done | | ].
        -- intros k Hk Hk'. simpl in Hk'.
           apply list_elem_of_singleton in Hk'. subst k. by apply Hkey.
        -- apply NoDup_singleton.
      * apply Forall_app. split; [done|]. constructor; [|constructor].
        split; [by exists symbol | done].
    + apply IHr; [done | done | | done].
      apply Forall_app. split; [done|]. by repeat constructor.
Qed.

(** X9: in the table the extractor returns no symbol occurs twice; every
    symbol in it is the name of a [SYMBOL] token of the stream, and every
    token list in it is made of tokens of the stream, none of them a
    [SEMICOLON]. *)
Theorem extracted_table_invariant
    (tokens : list Token) (defs : DictOfSymbolDefinitions) :
  parse_all_symbol_definitions tokens = Ok defs →
  NoDup defs.*1
  ∧ Forall (λ d, (∃ t, t ∈ tokens ∧ kind t = SYMBOL ∧ value t = d.1)
                 ∧ Forall (λ t, t ∈ tokens ∧ kind t ≠ SEMICOLON) d.2) defs.
Proof.
  intros Hparse.
  destruct (extractor_loops_invariant (λ t, t ∈ tokens) tokens) as [Hloop _].
  { by apply Forall_forall. }
  apply (Hloop None [] defs); [done | split; constructor | done].
Qed.

Lemma extracted_table_invariant_witness :
  let defs := [(Some "start"%string, tokens_of "<digit>+ '.' <digit>* | 'x'");
               (Some "digit"%string, tokens_of "'0' | '1'")] in
  NoDup defs.*1
  ∧ Forall (λ d, (∃ t, t ∈ tokens_of two_rules ∧ kind t = SYMBOL
                       ∧ value t = d.1)
                 ∧ Forall (λ t, t ∈ tokens_of two_rules ∧ kind t ≠ SEMICOLON)
                     d.2) defs.
Proof.
  intros defs.
  by apply (extracted_table_invariant (tokens_of two_rules) defs).
Defined.

(** ** Rule builder: what it rejects *)

Section BuilderErrors.
Context `{RegexLib}.

(** X10: a token of kind [OPAREN], [CPAREN], [DEFINE] or [SEMICOLON] in a
    rule body, once the tokens before it are accepted, is the reported
    unsupported-kind error naming the kind: parentheses are lexed but
    cannot be used. *)
Theorem unsupported_token_is_fatal
    (rule_symbol : option string) (parsed_rules next next' : addr)
    (pre rest : list Token) (t : Token) (variants current : list Rule) :
  is_unsupported (kind t) = true →
  rule_loop rule_symbol parsed_rules pre [] [] next
  = Ok (variants, current, next') →
  build_rule rule_symbol parsed_rules (pre ++ t :: rest) next
  = report_error_and_exit (msg_unsupported (kind t)).
Proof.
  intros Ht Hpre. unfold build_rule. rewrite rule_loop_app, Hpre.
  cbn [mbind result_bind]. simpl. by destruct (kind t).
Qed.

(** X11: a variant with nothing in it is the reported empty-variant
    error: an empty body, a body that ends with [ALTER], and an [ALTER]
    that follows another one or starts the body. *)
Theorem empty_variant_is_fatal
    (rule_symbol : option string) (parsed_rules next next' : addr)
    (pre : list Token) (variants : list Rule) :
  rule_loop rule_symbol parsed_rules pre [] [] next = Ok (variants, [], next') →
  build_rule rule_symbol parsed_rules pre next
  = report_error_and_exit (msg_empty_variant rule_symbol)
  ∧ ∀ alter rest,
      kind alter = ALTER →
      build_rule rule_symbol parsed_rules (pre ++ alter :: rest) next
      = report_error_and_exit (msg_empty_variant rule_symbol).
Proof.
  intros Hpre. split.
  - unfold build_rule. by rewrite Hpre.
  - intros alter rest Halter. unfold build_rule.
    rewrite rule_loop_app, Hpre. cbn [mbind result_bind]. simpl.
    by rewrite Halter.
Qed.

(** X12: a [REGEX] token whose pattern [re.compile] refuses, once the
    tokens before it are accepted, ends the build with the exception of
    [re.compile], which nothing catches: it is not a reported error. *)
Theorem bad_regex_is_uncaught
    (rule_symbol : option string) (parsed_rules next next' : addr)
    (pre rest : list Token) (t : Token) (pattern : string)
    (variants current : list Rule) :
  kind t = REGEX → value t = Some pattern → re_compile pattern = None →
  rule_loop rule_symbol parsed_rules pre [] [] next
  = Ok (variants, current, next') →
  build_rule rule_symbol parsed_rules (pre ++ t :: rest) next = Err ReError
  ∧ ¬ reported (build_rule rule_symbol parsed_rules (pre ++ t :: rest) next).
Proof.
  intros Hkind Hvalue Hcompile Hpre.
  assert (build_rule rule_symbol parsed_rules (pre ++ t :: rest) next
          = Err ReError) as ->.
  { unfold build_rule. rewrite rule_loop_app, Hpre.
    cbn [mbind result_bind]. simpl. rewrite Hkind, Hvalue. simpl.
    by rewrite Hcompile. }
  split; [done | by apply raise_not_reported].
Qed.

End BuilderErrors.

Lemma unsupported_token_is_fatal_witness :
  let lit := mkToken LITERAL (Some "a"%string) in
  build_rule (H := plain_regex) (Some "start"%string) 0
    ([lit] ++ mkToken OPAREN None :: [lit; mkToken CPAREN None]) 1
  = report_error_and_exit (msg_unsupported OPAREN).
Proof.
  intros lit.
  apply (unsupported_token_is_fatal (H := plain_regex) (Some "start"%string)
           0 1 1 [lit] [lit; mkToken CPAREN None] (mkToken OPAREN None)
           [] [LiteralRule (Some "a"%string)]); reflexivity.
Defined.

Lemma empty_variant_is_fatal_witness :
  let lit := mkToken LITERAL (Some "a"%string) in
  let alter := mkToken ALTER None in
  build_rule (H := plain_regex) (Some "start"%string) 0 [] 1
  = report_error_and_exit (msg_empty_variant (Some "start"%string))
  ∧ build_rule (H := plain_regex) (Some "start"%string) 0 [lit; alter] 1
    = report_error_and_exit (msg_empty_variant (Some "start"%string))
  ∧ build_rule (H := plain_regex) (Some "start"%string) 0
      ([lit; alter] ++ alter :: [lit]) 1
    = report_error_and_exit (msg_empty_variant (Some "start"%string)).
Proof.
  intros lit alter. split_and!.
  - apply (empty_variant_is_fatal (H := plain_regex) (Some "start"%string)
             0 1 1 [] []). reflexivity.
  - apply (empty_variant_is_fatal (H := plain_regex) (Some "start"%string)
             0 1 1 [lit; alter] [LiteralRule (Some "a"%string)]). reflexivity.
  - apply (empty_variant_is_fatal (H := plain_regex) (Some "start"%string)
             0 1 1 [lit; alter] [LiteralRule (Some "a"%string)]);
      reflexivity.
Defined.

Lemma bad_regex_is_uncaught_witness :
  let lit := mkToken LITERAL (Some "a"%string) in
  let bad := mkToken REGEX (Some "("%string) in
  build_rule (H := strict_regex) (Some "start"%string) 0 ([lit] ++ bad :: [lit]) 1
  = Err ReError
  ∧ ¬ reported (build_rule (H := strict_regex) (Some "start"%string) 0
                  ([lit] ++ bad :: [lit]) 1).
Proof.
  intros lit bad.
  apply (bad_regex_is_uncaught (H := strict_regex) (Some "start"%string)
           0 1 1 [lit] [lit] bad "(" [] [LiteralRule (Some "a"%string)]);
    reflexivity.
Defined.

(** ** Rule builder: the tree of a well-formed body *)

Section BuilderTrees.
Context `{RegexLib}.

Lemma pop_snoc {A} (l : list A) (x : A) : pop (l ++ [x]) = Ok (x, l).
Proof.
  induction l as [|y l IH]; [done|].
  change (pop ((y :: l) ++ [x])) with (pop (y :: (l ++ [x]))).
  destruct (l ++ [x]) as [|z l'] eqn:Hl.
  - by destruct l.
  - change (pop (y :: z :: l'))
      with ('(x', r') ← pop (z :: l'); Ok (x', y :: r')).
    by rewrite IH.
Qed.

Lemma rule_loop_postfixes rule_symbol parsed_rules ps rest variants current r next :
  rule_loop rule_symbol parsed_rules ((postfix_token <$> ps) ++ rest)
    variants (current ++ [r]) next
  = rule_loop rule_symbol parsed_rules rest variants
      (current ++ [foldl wrap r ps]) next.
Proof.
  revert r. induction ps as [|p ps IH]; intros r; [done|].
  destruct p; simpl; rewrite pop_snoc; simpl; apply IH.
Qed.

Lemma rule_loop_item rule_symbol parsed_rules item rest variants current next :
  rule_loop rule_symbol parsed_rules (item_tokens item ++ rest)
    variants current next
  = '(r, next') ← item_rule parsed_rules item next;
    rule_loop rule_symbol parsed_rules rest variants (current ++ [r]) next'.
Proof.
  destruct item as [[v|v|v] ps]; unfold item_tokens, item_rule; simpl.
  - apply rule_loop_postfixes.
  - destruct (compile v); simpl; [apply rule_loop_postfixes | done].
  - apply rule_loop_postfixes.
Qed.

Lemma rule_loop_items rule_symbol parsed_rules items rest variants current next :
  rule_loop rule_symbol parsed_rules (variant_tokens items ++ rest)
    variants current next
  = '(rs, next') ← items_rules parsed_rules items next;
    rule_loop rule_symbol parsed_rules rest variants (current ++ rs) next'.
Proof.
  revert current next. induction items as [|item items IH]; intros current next.
  - simpl. by rewrite app_nil_r.
  - change (variant_tokens (item :: items))
      with (item_tokens item ++ variant_tokens items).
    rewrite <- app_assoc. rewrite rule_loop_item. cbn [items_rules].
    destruct (item_rule parsed_rules item next) as [[r next1]|]; simpl; [|done].
    rewrite IH.
    destruct (items_rules parsed_rules items next1) as [[rs next2]|]; simpl;
      [|done].
    by rewrite <- app_assoc.
Qed.

Lemma items_rules_nonempty parsed_rules items next rs next' :
  items ≠ [] → items_rules parsed_rules items next = Ok (rs, next') → rs ≠ [].
Proof.
  destruct items as [|item items]; [done|]. intros _. simpl.
  destruct (item_rule _ _ _) as [[r n1]|]; [|done]. simpl.
  destruct (items_rules _ _ _) as [[rs' n2]|]; [|done]. simpl.
  by intros [= <- _].
Qed.

Lemma make_variant_nonempty rule_symbol rs :
  rs ≠ [] → make_variant rule_symbol rs = Ok (sequence_of rs).
Proof. by destruct rs as [|r [|r' rs]]. Qed.

Lemma variants_rules_cons parsed_rules items variants next :
  variants_rules parsed_rules (items :: variants) next
  = '(rs, next1) ← items_rules parsed_rules items next;
    '(vs, next2) ← variants_rules parsed_rules variants next1;
    Ok (sequence_of rs :: vs, next2).
Proof. reflexivity. Qed.

(** The loop over a whole body, then the variant that is pending at the
    end. *)
Lemma rule_loop_body rule_symbol parsed_rules variants collected next :
  variants ≠ [] → Forall (λ items, items ≠ []) variants →
  ('(alteration_variants, current, next') ←
     rule_loop rule_symbol parsed_rules (body_tokens variants) collected [] next;
   variant ← make_variant rule_symbol current;
   Ok (alteration_variants ++ [variant], next'))
  = '(vs, next') ← variants_rules parsed_rules variants next;
    Ok (collected ++ vs, next').
Proof.
  intros Hne Hall. revert collected next.
  induction Hall as [|items variants Hitems Hall IH]; [done|].
  intros collected next. destruct variants as [|items' variants].
  - simpl. rewrite <- (app_nil_r (variant_tokens items)), rule_loop_items.
    destruct (items_rules parsed_rules items next) as [[rs next1]|] eqn:Hrs;
      simpl; [|done].
    by rewrite (make_variant_nonempty _ rs (items_rules_nonempty _ _ _ _ _ Hitems Hrs)).
  - change (body_tokens (items :: items' :: variants))
      with (variant_tokens items
            ++ mkToken ALTER None :: body_tokens (items' :: variants)).
    rewrite rule_loop_items, variants_rules_cons.
    destruct (items_rules parsed_rules items next) as [[rs next1]|] eqn:Hrs;
      [|done].
    cbn [mbind result_bind]. simpl app.
    change (rule_loop rule_symbol parsed_rules
              (mkToken ALTER None :: body_tokens (items' :: variants))
              collected rs next1)
      with (variant ← make_variant rule_symbol rs;
            rule_loop rule_symbol parsed_rules
              (body_tokens (items' :: variants))
              (collected ++ [variant]) [] next1).
    rewrite (make_variant_nonempty _ rs (items_rules_nonempty _ _ _ _ _ Hitems Hrs)).
    cbn [mbind result_bind]. rewrite IH by done.
    destruct (variants_rules parsed_rules (items' :: variants) next1)
      as [[vs next2]|]; cbn [mbind result_bind]; [|done].
    by rewrite <- app_assoc.
Qed.

(** X13: the tree of a well-formed body.  For a body written as one or
    more variants separated by [ALTER], each a non-empty sequence of atoms
    with their postfix modifiers, the builder returns: for an atom its
    rule, wrapped by the modifiers from the first to the last; for a
    variant of several items their [CompoundRule], in order, and for a
    single item the item itself; for several variants their
    [AlterationRule], in order, and for a single variant the variant
    itself.  Every reference gets the next fresh address, and a pattern
    that does not compile fails the build with the error of
    [re.compile]. *)
Theorem build_rule_of_body
    (rule_symbol : option string) (parsed_rules next : addr)
    (variants : list (list Item)) :
  variants ≠ [] → Forall (λ items, items ≠ []) variants →
  build_rule rule_symbol parsed_rules (body_tokens variants) next
  = '(vs, next') ← variants_rules parsed_rules variants next;
    Ok (alternation_of vs, next').
Proof.
  intros Hne Hall. unfold build_rule.
  pose proof (rule_loop_body rule_symbol parsed_rules variants [] next Hne Hall)
    as Hbody.
  destruct (rule_loop _ _ _ _ _ _) as [[[avs cur] n]|e]; simpl in *.
  - destruct (make_variant rule_symbol cur) as [variant|e]; simpl in *.
    + destruct (variants_rules parsed_rules variants next) as [[vs n']|];
        simpl in *; [|done].
      injection Hbody as Hvs ->. rewrite Hvs.
      destruct vs as [|v [|v' vs]]; [by destruct avs | done | done].
    + destruct (variants_rules parsed_rules variants next) as [[vs n']|];
        simpl in *; congruence.
  - destruct (variants_rules parsed_rules variants next) as [[vs n']|];
      simpl in *; congruence.
Qed.

End BuilderTrees.

Lemma build_rule_of_body_witness :
  build_rule (H := plain_regex) (Some "start"%string) 0
    (body_tokens
       [[(Reference (Some "digit"%string), [Plus]); (Literal (Some "."%string), []);
         (Reference (Some "digit"%string), [Star; Opt])];
        [(Regex (Some "[a-z]"%string), [])]]) 1
  = Ok (AlterationRule
          [CompoundRule
             [OneOrMoreRule (ReferenceRule 1 (Some "digit"%string) 0);
              LiteralRule (Some "."%string);
              OptionalRule
                (NoneOrMoreRule (ReferenceRule 2 (Some "digit"%string) 0))];
           RegexRule (H := plain_regex) "[a-z]"%string], 3).
Proof.
  apply (build_rule_of_body (H := plain_regex) (Some "start"%string) 0 1
           [[(Reference (Some "digit"%string), [Plus]);
             (Literal (Some "."%string), []);
             (Reference (Some "digit"%string), [Star; Opt])];
            [(Regex (Some "[a-z]"%string), [])]]);
    [discriminate | repeat constructor; discriminate].
Defined.

(** ** Rule builder: the table of rules *)

Section RuleTable.
Context `{RegexLib}.

Lemma rules_loop_entries parsed_rules defs table next table' next' :
  rules_loop parsed_rules defs table next = Ok (table', next') →
  (∀ k, k ∉ defs.*1 → table' !! k = table !! k)
  ∧ (∀ k, k ∈ defs.*1 → is_Some (table' !! k))
  ∧ (NoDup defs.*1 →
     ∀ symbol rule_tokens, (symbol, rule_tokens) ∈ defs →
       ∃ n0 n1 rule,
         build_rule symbol parsed_rules rule_tokens n0 = Ok (rule, n1)
         ∧ table' !! symbol = Some rule).
Proof.
  revert table next.
  induction defs as [|[s ts] defs IH]; intros table next.
  { intros [= <- <-]. split_and!; [done | |].
    - intros k Hk. by apply elem_of_nil in Hk.
    - intros _ symbol rule_tokens Hin. by apply elem_of_nil in Hin. }
  simpl. destruct (build_rule s parsed_rules ts next) as [[rule n]|] eqn:Hbuild;
    [|done].
  simpl. intros Hloop. destruct (IH _ _ Hloop) as (Hother & Hkeys & Hentries).
  split_and!.
  - intros k Hk. apply not_elem_of_cons in Hk as [Hne Hk].
    rewrite Hother by done. by rewrite lookup_insert_ne.
  - intros k Hk. destruct (decide (k ∈ defs.*1)) as [Hin|Hnin]; [by apply Hkeys|].
    apply elem_of_cons in Hk as [->|]; [|done].
    rewrite Hother by done. by rewrite lookup_insert_eq.
  - intros Hnodup symbol rule_tokens Hin.
    apply NoDup_cons in Hnodup as [Hs Hnodup].
    apply elem_of_cons in Hin as [[= -> ->]|Hin].
    + exists next, n, rule. split; [done|].
      rewrite Hother by done. by rewrite lookup_insert_eq.
    + by apply Hentries.
Qed.

(** X14: the dictionary a successful build leaves at the address held
    by the entry point has an entry for exactly the symbols of the
    extracted definitions, and the entry of a symbol is the rule built
    from that symbol's own tokens; the dictionaries that were on the heap
    before, and every flag, are left as they were. *)
Theorem parsed_rules_table
    (tokens : list Token) (defs : DictOfSymbolDefinitions)
    (h h' : Heap) (root : Rule) :
  parse_all_symbol_definitions tokens = Ok defs →
  parse_bnf_tokens tokens h = Ok (root, h') →
  (∃ table,
     dicts h' !! next_addr h = Some table
     ∧ (∀ symbol, is_Some (table !! symbol) ↔ symbol ∈ defs.*1)
     ∧ ∀ symbol rule_tokens, (symbol, rule_tokens) ∈ defs →
         ∃ n0 n1 rule,
           build_rule symbol (next_addr h) rule_tokens n0 = Ok (rule, n1)
           ∧ table !! symbol = Some rule)
  ∧ (∀ a, a ≠ next_addr h → dicts h' !! a = dicts h !! a)
  ∧ had_repr_call h' = had_repr_call h.
Proof.
  intros Hdefs. unfold parse_bnf_tokens. rewrite Hdefs. simpl.
  destruct (extractor_loops_invariant (λ _, True) tokens) as [Hinv _].
  { by apply Forall_forall. }
  destruct (Hinv None [] defs) as [Hnodup _];
    [done | split; constructor | done |].
  destruct (negb _); [done|]. simpl.
  destruct (rules_loop _ _ _ _) as [[table next]|] eqn:Hloop; [|done].
  simpl. intros [= <- <-]. simpl.
  destruct (rules_loop_entries _ _ _ _ _ _ Hloop) as (Hother & Hkeys & Hentries).
  split_and!; [|by intros a Ha; rewrite lookup_insert_ne | done].
  exists table. rewrite lookup_insert_eq. split_and!; [done | | by apply Hentries].
  intros symbol. split; [|by apply Hkeys].
  intros Hsome. destruct (decide (symbol ∈ defs.*1)) as [|Hnin]; [done|].
  rewrite Hother in Hsome by done. rewrite lookup_empty in Hsome.
  by destruct Hsome.
Qed.

End RuleTable.

Lemma parsed_rules_table_witness :
  (∃ table,
     dicts (heap_of two_rules) !! next_addr (empty_heap (H := plain_regex)) = Some table
     ∧ (∀ symbol, is_Some (table !! symbol)
                  ↔ symbol ∈ [(Some "start"%string,
                               tokens_of "<digit>+ '.' <digit>* | 'x'");
                              (Some "digit"%string, tokens_of "'0' | '1'")].*1)
     ∧ ∀ symbol rule_tokens,
         (symbol, rule_tokens)
         ∈ [(Some "start"%string, tokens_of "<digit>+ '.' <digit>* | 'x'");
            (Some "digit"%string, tokens_of "'0' | '1'")] →
         ∃ n0 n1 rule,
           build_rule (H := plain_regex) symbol (next_addr (empty_heap (H := plain_regex)))
             rule_tokens n0 = Ok (rule, n1)
           ∧ table !! symbol = Some rule)
  ∧ (∀ a, a ≠ next_addr (empty_heap (H := plain_regex)) →
          dicts (heap_of two_rules) !! a = dicts (empty_heap (H := plain_regex)) !! a)
  ∧ had_repr_call (heap_of two_rules) = had_repr_call (empty_heap (H := plain_regex)).
Proof.
  apply (parsed_rules_table (H := plain_regex) (tokens_of two_rules)
           [(Some "start"%string, tokens_of "<digit>+ '.' <digit>* | 'x'");
            (Some "digit"%string, tokens_of "'0' | '1'")]
           empty_heap (heap_of two_rules) (root_of two_rules));
    by vm_compute.
Defined.

(** ** Generator: sequences, alternations, the recursion limit *)

Section GeneratorRules.
Context `{RegexLib}.

Lemma gen_each_in_sequence gen1 rules g outs g' :
  in_sequence gen1 rules g outs g'
  ↔ gen_each gen1 rules g = Ok (Some <$> outs, g').
Proof.
  split.
  - induction 1 as [|rule rules g s g1 outs g2 Hgen _ IH]; [done|].
    simpl. rewrite Hgen. simpl. by rewrite IH.
  - revert g outs. induction rules as [|rule rules IH]; intros g outs; simpl.
    + destruct outs; [|done]. intros [= <-]. constructor.
    + destruct (gen1 rule g) as [[s g1]|] eqn:Hgen; [|done]. simpl.
      destruct (gen_each gen1 rules g1) as [[ss g2]|] eqn:Hrest; [|done].
      simpl. destruct outs as [|s' outs]; [done|].
      intros [= -> -> ->]. econstructor; [done|]. by apply IH.
Qed.

Lemma gen_each_failure gen1 pre rule post g outs g1 e :
  in_sequence gen1 pre g outs g1 → gen1 rule g1 = Err e →
  gen_each gen1 (pre ++ rule :: post) g = Err e.
Proof.
  induction 1 as [|r rules g s g1 outs g2 Hgen _ IH]; intros Hfail; simpl.
  - by rewrite Hfail.
  - rewrite Hgen. simpl. by rewrite IH.
Qed.

(** X15: a [CompoundRule] generates its rules in order, each from the
    state of [random] the one before left, and returns the concatenation
    of their strings; it returns a string exactly when every one of them
    does.  The first rule that fails makes it fail with the same error,
    and the rules behind it are not generated. *)
Theorem compound_concatenates
    (depth : nat) (h : Heap) (values : list Rule) (g : Random) :
  (∀ s g',
     gen (S depth) h (CompoundRule values) g = Ok (Some s, g')
     ↔ ∃ outs, in_sequence (gen depth h) values g outs g'
               ∧ s = String.concat "" outs)
  ∧ (∀ pre rule post outs g1 e,
       values = pre ++ rule :: post →
       in_sequence (gen depth h) pre g outs g1 →
       gen depth h rule g1 = Err e →
       gen (S depth) h (CompoundRule values) g = Err e).
Proof.
  split.
  - intros s g'. cbn [gen]. split.
    + destruct (gen_each (gen depth h) values g) as [[items g'']|] eqn:Hgen;
        [|done].
      simpl. unfold join. destruct (mapM id items) as [outs|] eqn:Hm; [|done].
      simpl. intros [= <- <-]. apply mapM_id_Some in Hm as ->.
      exists outs. split; [|done]. by apply gen_each_in_sequence.
    + intros (outs & Hgen & ->). apply gen_each_in_sequence in Hgen as ->.
      simpl. unfold join.
      by rewrite (proj2 (mapM_id_Some (Some <$> outs) outs) eq_refl).
  - intros pre rule post outs g1 e -> Hpre Hfail. cbn [gen].
    by rewrite (gen_each_failure _ _ _ _ _ _ _ _ Hpre Hfail).
Qed.

Lemma choice_lookup {A} (seq : list A) (g : Random) :
  seq ≠ [] →
  ∃ x, seq !! (raw g (cursor g) mod length seq) = Some x
       ∧ choice seq g = Ok (x, advance g).
Proof.
  intros Hne. destruct seq as [|y seq]; [done|].
  unfold choice, randbelow, advance.
  destruct ((y :: seq) !! (raw g (cursor g) mod length (y :: seq)))
    as [x|] eqn:Hx.
  - by exists x.
  - apply lookup_ge_None in Hx.
    pose proof (Nat.mod_upper_bound (raw g (cursor g)) (length (y :: seq))) as Hlt.
    simpl in *. lia.
Qed.

(** X16: an [AlterationRule] takes one draw and generates exactly one of
    its variants, the one whose index is the draw reduced modulo the
    number of variants, from the state of [random] after the draw; with no
    variant at all it raises [IndexError]. *)
Theorem alteration_picks_one
    (depth : nat) (h : Heap) (values : list Rule) (g : Random) :
  (values = [] → gen (S depth) h (AlterationRule values) g = Err IndexError)
  ∧ (values ≠ [] →
     ∃ value,
       values !! (raw g (cursor g) mod length values) = Some value
       ∧ gen (S depth) h (AlterationRule values) g
         = gen depth h value (advance g)).
Proof.
  split.
  - by intros ->.
  - intros Hne. destruct (choice_lookup values g Hne) as (value & Hvalue & Hchoice).
    exists value. split; [done|]. cbn [gen]. by rewrite Hchoice.
Qed.

Lemma gen_each_more gen1 gen2 rules g res :
  (∀ rule g0 res0, gen1 rule g0 = res0 → res0 ≠ Err RecursionError →
                   gen2 rule g0 = res0) →
  gen_each gen1 rules g = res → res ≠ Err RecursionError →
  gen_each gen2 rules g = res.
Proof.
  intros Hmore. revert g res.
  induction rules as [|rule rules IH]; intros g res; [done|]. simpl.
  destruct (gen1 rule g) as [[s g1]|e] eqn:Hgen.
  - rewrite (Hmore _ _ _ Hgen) by done. simpl.
    destruct (gen_each gen1 rules g1) as [[ss g2]|e] eqn:Hrest.
    + rewrite (IH _ _ Hrest) by done. done.
    + simpl. intros <- Hres. by rewrite (IH _ _ Hrest).
  - simpl. intros <- Hres. rewrite (Hmore _ _ _ Hgen); [done | congruence].
Qed.

Lemma gen_more_step depth h rule g res :
  gen depth h rule g = res → res ≠ Err RecursionError →
  gen (S depth) h rule g = res.
Proof.
  revert rule g res. induction depth as [|depth IH]; intros rule g res.
  { by intros <-. }
  assert (∀ rules g0 res0,
            gen_each (gen depth h) rules g0 = res0 → res0 ≠ Err RecursionError →
            gen_each (gen (S depth) h) rules g0 = res0) as IHeach.
  { intros rules g0 res0. by apply gen_each_more. }
  assert (∀ rules g0 res0,
            ('(items, g') ← gen_each (gen depth h) rules g0;
             s ← join items; Ok (Some s, g')) = res0 →
            res0 ≠ Err RecursionError →
            ('(items, g') ← gen_each (gen (S depth) h) rules g0;
             s ← join items; Ok (Some s, g')) = res0) as IHjoin.
  { intros rules g0 res0.
    destruct (gen_each (gen depth h) rules g0) as [[items g']|e] eqn:Heach.
    - assert (gen_each (gen (S depth) h) rules g0 = Ok (items, g')) as Hmore
        by by apply IHeach.
      by rewrite Hmore.
    - cbn [mbind result_bind]. intros <- Hres.
      assert (gen_each (gen (S depth) h) rules g0 = Err e) as Hmore
        by (apply IHeach; [done | congruence]).
      by rewrite Hmore. }
  destruct rule as [value|value|values|values|self symbol context
                   |value|value|value].
  - done.
  - done.
  - change (gen (S depth) h (CompoundRule values) g)
      with ('(items, g') ← gen_each (gen depth h) values g;
            s ← join items; Ok (Some s, g')).
    change (gen (S (S depth)) h (CompoundRule values) g)
      with ('(items, g') ← gen_each (gen (S depth) h) values g;
            s ← join items; Ok (Some s, g')).
    apply IHjoin.
  - change (gen (S depth) h (AlterationRule values) g)
      with ('(value, g') ← choice values g; gen depth h value g').
    change (gen (S (S depth)) h (AlterationRule values) g)
      with ('(value, g') ← choice values g; gen (S depth) h value g').
    destruct (choice values g) as [[value g']|]; [apply IH | done].
  - change (gen (S depth) h (ReferenceRule self symbol context) g)
      with (match context_get h context symbol with
            | None => report_error_and_exit (msg_undefined symbol)
            | Some value => gen depth h value g
            end).
    change (gen (S (S depth)) h (ReferenceRule self symbol context) g)
      with (match context_get h context symbol with
            | None => report_error_and_exit (msg_undefined symbol)
            | Some value => gen (S depth) h value g
            end).
    destruct (context_get h context symbol); [apply IH | done].
  - change (gen (S depth) h (OptionalRule value) g)
      with ('(b, g') ← choice [true; false] g;
            if b : bool then gen depth h value g' else Ok (Some ""%string, g')).
    change (gen (S (S depth)) h (OptionalRule value) g)
      with ('(b, g') ← choice [true; false] g;
            if b : bool then gen (S depth) h value g'
            else Ok (Some ""%string, g')).
    destruct (choice [true; false] g) as [[[|] g']|]; [apply IH | done | done].
  - rewrite !gen_NoneOrMoreRule. apply IHjoin.
  - rewrite !gen_OneOrMoreRule. apply IHjoin.
Qed.

(** X17: the recursion limit only decides whether [RecursionError] is
    raised: a generation that ends in anything else (a value, or another
    error) ends in the same, with the same state of [random], under every
    larger limit. *)
Theorem gen_larger_limit
    (depth depth' : nat) (h : Heap) (rule : Rule) (g : Random)
    (res : result (option string * Random)) :
  depth ≤ depth' →
  gen depth h rule g = res → res ≠ Err RecursionError →
  gen depth' h rule g = res.
Proof.
  intros Hle Hgen Hres. induction Hle as [|depth' _ IH]; [done|].
  by apply gen_more_step.
Qed.

End GeneratorRules.

Lemma compound_concatenates_witness :
  let a := LiteralRule (H := plain_regex) (Some "a"%string) in
  let b := OptionalRule (LiteralRule (H := plain_regex) (Some "b"%string)) in
  let missing := ReferenceRule (H := plain_regex) 7 (Some "missing"%string) 0 in
  gen 3 empty_heap (CompoundRule [a; b; a]) (mkRandom (λ _, 0) 0)
  = Ok (Some "aba"%string, mkRandom (λ _, 0) 1)
  ∧ gen 3 empty_heap (CompoundRule ([a; b] ++ missing :: [b]))
      (mkRandom (λ _, 0) 0)
    = report_error_and_exit (msg_undefined (Some "missing"%string)).
Proof.
  intros a b missing. split.
  - destruct (compound_concatenates (H := plain_regex) 2 empty_heap [a; b; a]
                (mkRandom (λ _, 0) 0)) as [Hok _].
    apply Hok. exists ["a"; "b"; "a"]%string. split; [|reflexivity].
    repeat (econstructor; [reflexivity|]). constructor.
  - destruct (compound_concatenates (H := plain_regex) 2 empty_heap
                ([a; b] ++ missing :: [b]) (mkRandom (λ _, 0) 0)) as [_ Hfail].
    apply (Hfail [a; b] missing [b] ["a"; "b"]%string (mkRandom (λ _, 0) 1));
      [reflexivity | | reflexivity].
    repeat (econstructor; [reflexivity|]). constructor.
Defined.

Lemma alteration_picks_one_witness :
  let a := LiteralRule (H := plain_regex) (Some "a"%string) in
  let b := LiteralRule (H := plain_regex) (Some "b"%string) in
  gen (H := plain_regex) 2 empty_heap (AlterationRule [])
    (mkRandom (λ _, 3) 0) = Err IndexError
  ∧ ∃ value,
      [a; b] !! (3 mod 2) = Some value
      ∧ gen 2 empty_heap (AlterationRule [a; b]) (mkRandom (λ _, 3) 0)
        = gen 1 empty_heap value (advance (mkRandom (λ _, 3) 0)).
Proof.
  intros a b. split.
  - by apply (alteration_picks_one (H := plain_regex) 1 empty_heap []
                (mkRandom (λ _, 3) 0)).
  - by apply (alteration_picks_one (H := plain_regex) 1 empty_heap [a; b]
                (mkRandom (λ _, 3) 0)).
Defined.

Lemma gen_larger_limit_witness :
  gen 1000 (heap_of refers_to_missing) (root_of refers_to_missing)
    (mkRandom (λ _, 1) 0)
  = report_error_and_exit (msg_undefined (Some "missing"%string)).
Proof.
  apply (gen_larger_limit (H := plain_regex) 3 1000
           (heap_of refers_to_missing) (root_of refers_to_missing)
           (mkRandom (λ _, 1) 0));
    [lia | by vm_compute | discriminate].
Defined.

(** ** From the grammar text to a generation that cannot crash *)

Section NoCrash.
Context `{RegexLib}.

Lemma forallb_Forall {A} (f : A → bool) (l : list A) :
  forallb f l = true ↔ Forall (λ x, f x = true) l.
Proof.
  induction l as [|x l IH]; simpl.
  - split; [constructor | done].
  - rewrite andb_true_iff, IH. split.
    + intros [? ?]. by constructor.
    + by inversion 1.
Qed.

Lemma make_variant_well_formed rule_symbol current variant :
  Forall (λ r, well_formed r = true) current →
  make_variant rule_symbol current = Ok variant →
  well_formed variant = true.
Proof.
  intros Hcur. destruct current as [|v [|v' current]]; [done|..].
  - intros [= <-]. by inversion Hcur.
  - intros [= <-]. by apply forallb_Forall.
Qed.

Lemma rule_loop_well_formed rule_symbol context tokens
    variants current next variants' current' next' :
  Forall lexed tokens →
  Forall (λ r, well_formed r = true) variants →
  Forall (λ r, well_formed r = true) current →
  rule_loop rule_symbol context tokens variants current next
  = Ok (variants', current', next') →
  Forall (λ r, well_formed r = true) variants'
  ∧ Forall (λ r, well_formed r = true) current'.
Proof.
  intros Htokens. revert variants current next.
  induction Htokens as [|t tokens Ht _ IH]; intros variants current next Hv Hc.
  { by intros [= <- <- <-]. }
  simpl. unfold lexed in Ht. destruct (kind t) eqn:Hk; try done.
  - apply IH; [done|]. apply Forall_app. split; [done|]. by repeat constructor.
  - apply IH; [done|]. apply Forall_app. split; [done|].
    repeat constructor. simpl. by apply bool_decide_eq_true.
  - destruct (make_variant rule_symbol current) as [variant|] eqn:Hm; [|done].
    simpl. apply IH; [|constructor].
    apply Forall_app. split; [done|]. repeat constructor.
    by eapply make_variant_well_formed.
  - destruct (compile (value t)); [|done]. simpl.
    apply IH; [done|]. apply Forall_app. split; [done|]. by repeat constructor.
  - destruct (pop current) as [[x r]|] eqn:Hp; [|done].
    apply pop_Some in Hp as ->. apply Forall_app in Hc as [Hr Hx].
    simpl. apply IH; [done|]. apply Forall_app. split; [done|].
    constructor; [|constructor]. by inversion Hx.
  - destruct (pop current) as [[x r]|] eqn:Hp; [|done].
    apply pop_Some in Hp as ->. apply Forall_app in Hc as [Hr Hx].
    simpl. apply IH; [done|]. apply Forall_app. split; [done|].
    constructor; [|constructor]. by inversion Hx.
  - destruct (pop current) as [[x r]|] eqn:Hp; [|done].
    apply pop_Some in Hp as ->. apply Forall_app in Hc as [Hr Hx].
    simpl. apply IH; [done|]. apply Forall_app. split; [done|].
    constructor; [|constructor]. by inversion Hx.
Qed.

Lemma build_rule_well_formed rule_symbol context tokens next rule next' :
  Forall lexed tokens →
  build_rule rule_symbol context tokens next = Ok (rule, next') →
  well_formed rule = true.
Proof.
  intros Htokens. unfold build_rule.
  destruct (rule_loop _ _ _ _ _ _) as [[[variants current] n]|] eqn:Hloop;
    [|done].
  apply rule_loop_well_formed in Hloop as [Hv Hc]; [|done|constructor..].
  simpl. destruct (make_variant rule_symbol current) as [variant|] eqn:Hm;
    [|done].
  simpl. apply make_variant_well_formed in Hm; [|done].
  assert (Forall (λ r, well_formed r = true) (variants ++ [variant])) as Hall.
  { apply Forall_app. split; [done|]. by repeat constructor. }
  destruct (variants ++ [variant]) as [|v [|v' vs]]; [done|..].
  - intros [= <- _]. by inversion Hall.
  - intros [= <- _]. by apply forallb_Forall.
Qed.

Lemma rules_loop_well_formed context defs table next table' next' :
  Forall (λ d, Forall lexed d.2) defs →
  map_Forall (λ _ r, well_formed r = true) table →
  rules_loop context defs table next = Ok (table', next') →
  map_Forall (λ _ r, well_formed r = true) table'.
Proof.
  intros Hdefs. revert table next.
  induction Hdefs as [|[s ts] defs Hts _ IH]; intros table next Htable.
  { by intros [= <- _]. }
  simpl. destruct (build_rule _ _ _ _) as [[rule n]|] eqn:Hbuild; [|done].
  simpl. apply build_rule_well_formed in Hbuild; [|done].
  apply IH. by apply map_Forall_insert_2.
Qed.

(** A grammar text that parses leaves a heap whose only dictionary holds
    well-formed rules. *)
Lemma parse_bnf_well_formed bnf root h :
  parse_bnf bnf empty_heap = Ok (root, h) →
  ∀ context symbol value,
    context_get h context symbol = Some value → well_formed value = true.
Proof.
  unfold parse_bnf. destruct (lex_bnf bnf) as [tokens|] eqn:Hlex; [|done].
  simpl. unfold parse_bnf_tokens.
  destruct (parse_all_symbol_definitions tokens) as [defs|] eqn:Hdefs; [|done].
  simpl. destruct (negb _); [done|]. simpl.
  destruct (rules_loop _ _ _ _) as [[table next]|] eqn:Hloop; [|done].
  simpl. intros [= _ <-] context symbol value. unfold context_get. simpl.
  apply rules_loop_well_formed in Hloop; [| |apply map_Forall_empty].
  - destruct (decide (context = 0)) as [->|Hne].
    + rewrite lookup_insert_eq. simpl. apply Hloop.
    + by rewrite lookup_insert_ne, lookup_empty.
  - destruct (extractor_loops_invariant lexed tokens) as [Hinv _].
    { destruct (lex_loops_lexed (String.length bnf) bnf (le_n _)) as (Hlexed & _).
      by eapply Hlexed. }
    destruct (Hinv None [] defs) as [_ Hall];
      [done | split; constructor | done |].
    eapply Forall_impl; [exact Hall|]. intros d [_ Hd].
    eapply Forall_impl; [exact Hd|]. by intros t [? _].
Qed.




End NoCrash.


(** The grammar [<start> ::= /a{7}/ ;] is parsed; with a library whose
    generation raises [ValueError] on that pattern, the program dies of
    that exception. *)
Example main_regex_raises :
  main (H := capped_regex) "<start> ::= /a{7}/ ;" false 1000 (mkRandom (λ _, 0) 0)
  = Err ValueError.
Proof. reflexivity. Qed.

(** ** Introspector: what printing does to the heap *)

Section ReprHeap.
Context `{RegexLib}.

Lemma repr_each_dicts repr1 values h items h' :
  (∀ v h0 s0 h0', repr1 v h0 = Ok (s0, h0') →
                  dicts h0' = dicts h0 ∧ next_addr h0' = next_addr h0) →
  repr_each repr1 values h = Ok (items, h') →
  dicts h' = dicts h ∧ next_addr h' = next_addr h.
Proof.
  intros Hrepr. revert h items.
  induction values as [|v values IH]; intros h items; [by intros [= _ <-]|].
  simpl. destruct (repr1 v h) as [[s h1]|] eqn:Hv; [|done]. simpl.
  destruct (repr_each repr1 values h1) as [[ss h2]|] eqn:Hrest; [|done].
  simpl. intros [= _ <-]. apply Hrepr in Hv as [Hd Hn].
  apply IH in Hrest as [Hd' Hn']. split; congruence.
Qed.

Lemma repr_dicts depth rule h s h' :
  repr depth rule h = Ok (s, h') →
  dicts h' = dicts h ∧ next_addr h' = next_addr h.
Proof.
  revert rule h s h'. induction depth as [|depth IH]; intros rule h s h'; [done|].
  destruct rule as [value|value|values|values|self symbol context
                   |value|value|value]; cbn [repr].
  - destruct value; [|done]. by intros [= _ <-].
  - by intros [= _ <-].
  - destruct (repr_each _ values h) as [[items h1]|] eqn:Heach; [|done].
    simpl. intros [= _ <-]. by eapply repr_each_dicts.
  - destruct (repr_each _ values h) as [[items h1]|] eqn:Heach; [|done].
    simpl. intros [= _ <-]. by eapply repr_each_dicts.
  - case_bool_decide; [by intros [= _ <-]|].
    destruct (context_get _ context symbol) as [value|].
    + destruct (repr depth value _) as [[s1 h1]|] eqn:Hvalue; [|done].
      simpl. intros [= _ <-]. by apply IH in Hvalue.
    + by intros [= _ <-].
  - destruct (repr depth value h) as [[s1 h1]|] eqn:Hvalue; [|done].
    simpl. intros [= _ <-]. by eapply IH.
  - destruct (repr depth value h) as [[s1 h1]|] eqn:Hvalue; [|done].
    simpl. intros [= _ <-]. by eapply IH.
  - destruct (repr depth value h) as [[s1 h1]|] eqn:Hvalue; [|done].
    simpl. intros [= _ <-]. by eapply IH.
Qed.

(** X19: printing a rule changes nothing on the heap but flags: the
    dictionaries stay as they are, no object is created, and every flag
    that was set stays set. *)
Theorem repr_only_sets_flags
    (depth : nat) (rule : Rule) (h h' : Heap) (s : string) :
  repr depth rule h = Ok (s, h') →
  dicts h' = dicts h
  ∧ next_addr h' = next_addr h
  ∧ had_repr_call h ⊆ had_repr_call h'.
Proof.
  intros Hrepr. destruct (repr_dicts _ _ _ _ _ Hrepr) as [Hdicts Hnext].
  split_and!; [done | done | by eapply repr_flags].
Qed.

Lemma selves_values_nil (values : list Rule) :
  mjoin (selves <$> values) = [] → Forall (λ v, selves v = []) values.
Proof.
  induction values as [|v values IH]; [constructor|].
  simpl. intros [Hv Hrest]%app_eq_nil. constructor; [done | by apply IH].
Qed.

Lemma repr_each_pure repr1 values h items h' :
  Forall (λ v, ∀ h0 s0 h0', repr1 v h0 = Ok (s0, h0') →
                             h0' = h0 ∧ ∀ h2, repr1 v h2 = Ok (s0, h2)) values →
  repr_each repr1 values h = Ok (items, h') →
  h' = h ∧ ∀ h2, repr_each repr1 values h2 = Ok (items, h2).
Proof.
  intros Hvalues. revert h items.
  induction Hvalues as [|v values Hv _ IH]; intros h items.
  { by intros [= <- <-]. }
  simpl. destruct (repr1 v h) as [[s h1]|] eqn:Hrepr; [|done]. simpl.
  destruct (repr_each repr1 values h1) as [[ss h2]|] eqn:Hrest; [|done].
  simpl. intros [= <- <-].
  apply Hv in Hrepr as [-> Hany]. apply IH in Hrest as [-> Hrest].
  split; [done|]. intros h3. simpl. rewrite Hany. simpl. by rewrite Hrest.
Qed.

Lemma repr_pure depth rule h s h' :
  selves rule = [] →
  repr depth rule h = Ok (s, h') →
  h' = h ∧ ∀ h2, repr depth rule h2 = Ok (s, h2).
Proof.
  revert rule h s h'. induction depth as [|depth IH]; intros rule h s h'; [done|].
  destruct rule as [value|value|values|values|self symbol context
                   |value|value|value]; cbn [repr selves]; intros Hselves.
  - destruct value; [|done]. by intros [= <- <-].
  - by intros [= <- <-].
  - destruct (repr_each _ values h) as [[items h1]|] eqn:Heach; [|done].
    simpl. intros [= <- <-].
    apply repr_each_pure in Heach as [-> Hany].
    + split; [done|]. intros h2. by rewrite Hany.
    + eapply Forall_impl; [by apply selves_values_nil|].
      intros v Hv h0 s0 h0'. by apply IH.
  - destruct (repr_each _ values h) as [[items h1]|] eqn:Heach; [|done].
    simpl. intros [= <- <-].
    apply repr_each_pure in Heach as [-> Hany].
    + split; [done|]. intros h2. by rewrite Hany.
    + eapply Forall_impl; [by apply selves_values_nil|].
      intros v Hv h0 s0 h0'. by apply IH.
  - done.
  - destruct (repr depth value h) as [[s1 h1]|] eqn:Hvalue; [|done].
    simpl. intros [= <- <-]. apply IH in Hvalue as [-> Hany]; [|done].
    split; [done|]. intros h2. by rewrite Hany.
  - destruct (repr depth value h) as [[s1 h1]|] eqn:Hvalue; [|done].
    simpl. intros [= <- <-]. apply IH in Hvalue as [-> Hany]; [|done].
    split; [done|]. intros h2. by rewrite Hany.
  - destruct (repr depth value h) as [[s1 h1]|] eqn:Hvalue; [|done].
    simpl. intros [= <- <-]. apply IH in Hvalue as [-> Hany]; [|done].
    split; [done|]. intros h2. by rewrite Hany.
Qed.

(** X20: a rule with no [ReferenceRule] in it is printed without any
    effect: the heap is left as it is, and printing it again, on any
    heap, returns the same string. *)
Theorem repr_without_references
    (depth : nat) (rule : Rule) (h h' : Heap) (s : string) :
  selves rule = [] →
  repr depth rule h = Ok (s, h') →
  h' = h ∧ ∀ h2, repr depth rule h2 = Ok (s, h2).
Proof. apply repr_pure. Qed.

End ReprHeap.

Lemma repr_only_sets_flags_witness :
  dicts (set_had_repr_call 1 (heap_of start_x)) = dicts (heap_of start_x)
  ∧ next_addr (set_had_repr_call 1 (heap_of start_x)) = next_addr (heap_of start_x)
  ∧ had_repr_call (heap_of start_x)
    ⊆ had_repr_call (set_had_repr_call 1 (heap_of start_x)).
Proof.
  apply (repr_only_sets_flags (H := plain_regex) 1000 (root_of start_x)
           (heap_of start_x) (set_had_repr_call 1 (heap_of start_x))
           ("ReferenceRule(<start> with LiteralRule(" +:+ quoted "x" +:+ "))")).
  by vm_compute.
Defined.

Lemma repr_without_references_witness :
  let rule := CompoundRule
                [OptionalRule (LiteralRule (H := plain_regex) (Some "a"%string));
                 RegexRule (H := plain_regex) "[0-9]"%string] in
  let s := ("CompoundRule(OptionalRule(LiteralRule(" +:+ quoted "a"
            +:+ ")), RegexRule(re.compile('[0-9]')))")%string in
  heap_of start_x = heap_of start_x
  ∧ ∀ h2, repr 5 rule h2 = Ok (s, h2).
Proof.
  intros rule s.
  apply (repr_without_references (H := plain_regex) 5 rule (heap_of start_x));
    reflexivity.
Defined.

(** ** Introspector: printing terminates *)

Section ReprTerminates.
Context `{RegexLib}.

(** [known] holds the addresses of the references that can be reached,
    [bound] the height of the rules in the dictionaries. *)
Variables (known : gset addr) (bound : nat).

Lemma closed_dicts h h' : dicts h' = dicts h → closed known bound h → closed known bound h'.
Proof.
  intros Hd Hclosed context symbol value. unfold context_get. rewrite Hd.
  apply Hclosed.
Qed.

Lemma pending_mono h h' :
  had_repr_call h ⊆ had_repr_call h' → pending known h' ≤ pending known h.
Proof.
  intros Hsub. unfold pending, addr in *. apply subseteq_size.
  intros a. rewrite !elem_of_difference. intros [Ha Hflag]. split; [done|].
  intros Hin. by apply Hflag, Hsub.
Qed.

Lemma pending_set self h :
  self ∈ known → self ∉ had_repr_call h →
  S (pending known (set_had_repr_call self h)) ≤ pending known h.
Proof.
  intros Hknown Hflag. unfold pending, addr in *. simpl.
  apply Nat.le_succ_l, subset_size. split.
  - intros a. rewrite !elem_of_difference, elem_of_union. tauto.
  - intros Hsub. specialize (Hsub self).
    rewrite !elem_of_difference, elem_of_union, elem_of_singleton in Hsub.
    tauto.
Qed.

Lemma repr_each_enough depth values h :
  (∀ v h0, v ∈ values → closed known bound h0 → pending known h0 ≤ pending known h →
           ∃ s h', repr depth v h0 = Ok (s, h')) →
  closed known bound h →
  ∃ items h', repr_each (repr depth) values h = Ok (items, h').
Proof.
  intros Hvalues.
  assert (∀ h0, closed known bound h0 → pending known h0 ≤ pending known h →
                ∃ items h', repr_each (repr depth) values h0 = Ok (items, h'))
    as Hall; [|intros; by apply Hall].
  induction values as [|v values IH]; intros h0 Hclosed Hpending.
  { by exists [], h0. }
  destruct (Hvalues v h0 ltac:(left) Hclosed Hpending) as (s & h1 & Hv).
  destruct (repr_dicts _ _ _ _ _ Hv) as [Hd _].
  pose proof (pending_mono _ _ (repr_flags _ _ _ _ _ Hv)) as Hp.
  destruct (IH (λ v' h' Hin, Hvalues v' h' ltac:(by right)) h1)
    as (ss & h2 & Hrest); [by eapply closed_dicts | lia |].
  exists (s :: ss), h2. simpl. rewrite Hv. simpl. by rewrite Hrest.
Qed.

Lemma height_values (values : list Rule) (v : Rule) :
  v ∈ values → height v ≤ max_list (height <$> values).
Proof. intros Hin. apply max_list_elem_of_le. by apply list_elem_of_fmap_2. Qed.

Lemma selves_values (values : list Rule) (v : Rule) :
  v ∈ values → Forall (λ a, a ∈ known) (mjoin (selves <$> values)) →
  Forall (λ a, a ∈ known) (selves v).
Proof.
  intros Hin Hall. apply Forall_forall. intros a Ha.
  eapply Forall_forall in Hall; [done|].
  apply list_elem_of_join. exists (selves v). split; [done|].
  by apply list_elem_of_fmap_2.
Qed.

(** With a recursion limit above the height of the rule plus the height
    bound for every reference still to be printed, printing returns. *)
Lemma repr_enough depth rule h :
  closed known bound h → well_formed rule = true →
  Forall (λ a, a ∈ known) (selves rule) →
  height rule + pending known h * bound ≤ depth →
  ∃ s h', repr depth rule h = Ok (s, h').
Proof.
  revert rule h. induction depth as [|depth IH];
    intros rule h Hclosed Hwf Hselves Hdepth.
  { destruct rule; simpl in Hdepth; lia. }
  assert (∀ values,
            forallb well_formed values = true →
            Forall (λ a, a ∈ known) (mjoin (selves <$> values)) →
            max_list (height <$> values) + pending known h * bound ≤ depth →
            ∃ items h', repr_each (repr depth) values h = Ok (items, h'))
    as IHeach.
  { intros values Hall Hknown Hheight. apply repr_each_enough; [|done].
    intros v h0 Hin Hclosed0 Hpending. apply IH; [done | | |].
    - apply forallb_Forall in Hall. by eapply Forall_forall in Hall.
    - by eapply selves_values.
    - pose proof (height_values values v Hin).
      pose proof (Nat.mul_le_mono_r _ _ bound Hpending). lia. }
  destruct rule as [value|value|values|values|self symbol context
                   |value|value|value]; simpl in Hwf, Hselves, Hdepth;
    cbn [repr].
  - apply bool_decide_eq_true in Hwf as [s ->]. by eexists _, _.
  - by eexists _, _.
  - destruct (IHeach values) as (items & h' & ->); [done | done | lia |].
    by eexists _, _.
  - apply andb_true_iff in Hwf as [_ Hwf].
    destruct (IHeach values) as (items & h' & ->); [done | done | lia |].
    by eexists _, _.
  - case_bool_decide as Hflag; [by eexists _, _|].
    assert (self ∈ known) as Hself by (by inversion Hselves).
    pose proof (pending_set self h Hself Hflag) as Hless.
    destruct (context_get _ context symbol) as [value|] eqn:Hget;
      [|by eexists _, _].
    assert (closed known bound (set_had_repr_call self h)) as Hclosed'
      by by eapply closed_dicts.
    destruct (Hclosed' _ _ _ Hget) as (Hwf' & Hheight & Hknown).
    destruct (IH value (set_had_repr_call self h)) as (s & h' & ->);
      [done | done | done | | by eexists _, _].
    pose proof (Nat.mul_le_mono_r _ _ bound Hless). simpl in *. lia.
  - destruct (IH value h) as (s & h' & ->); [done.. | lia | by eexists _, _].
  - destruct (IH value h) as (s & h' & ->); [done.. | lia | by eexists _, _].
  - destruct (IH value h) as (s & h' & ->); [done.. | lia | by eexists _, _].
Qed.

End ReprTerminates.

Section ReprOfGrammar.
Context `{RegexLib}.

(** X21: printing the tree of a grammar terminates, recursive grammars
    included: for every grammar text that parses there is a recursion
    limit from which on the first dump of the tree returns a string.  Each
    reference is printed in full at most once, so the limit needed is the
    height of the rules times the number of references, whatever cycles
    the references form. *)
Theorem repr_terminates (bnf : string) (root : Rule) (h : Heap) :
  parse_bnf bnf empty_heap = Ok (root, h) →
  ∃ limit, ∀ depth, limit ≤ depth →
    ∃ s h', repr depth root h = Ok (s, h').
Proof.
  intros Hparse.
  pose proof (parse_bnf_well_formed _ _ _ Hparse) as Hwf.
  unfold parse_bnf in Hparse. destruct (lex_bnf bnf) as [tokens|]; [|done].
  simpl in Hparse.
  apply parse_bnf_tokens_inv in Hparse as (self & table & -> & -> & _).
  set (values := (map_to_list table).*2).
  set (known := list_to_set (self :: mjoin (selves <$> values)) : gset nat).
  set (bound := max_list (height <$> values)).
  set (h := mkHeap _ _ _) in *.
  assert (closed known bound h) as Hclosed.
  { intros context symbol value Hget. split; [by eapply Hwf|].
    assert (value ∈ values) as Hin.
    { unfold context_get, h in Hget. simpl in Hget.
      destruct (decide (context = 0)) as [->|Hne].
      - rewrite lookup_insert_eq in Hget. simpl in Hget.
        apply elem_of_map_to_list in Hget.
        by apply (list_elem_of_fmap_2 snd) in Hget.
      - by rewrite lookup_insert_ne, lookup_empty in Hget. }
    split; [by apply height_values|].
    apply Forall_forall. intros a Ha. unfold known.
    apply elem_of_list_to_set. right. apply list_elem_of_join.
    exists (selves value). split; [done|]. by apply list_elem_of_fmap_2. }
  exists (1 + pending known h * bound). intros depth Hdepth.
  apply (repr_enough known bound); [done | done | | simpl; lia].
  repeat constructor. unfold known. apply elem_of_list_to_set. by left.
Qed.

End ReprOfGrammar.

Lemma repr_terminates_witness :
  ∃ limit, ∀ depth, limit ≤ depth →
    ∃ s h', repr depth (root_of recursive_grammar) (heap_of recursive_grammar)
            = Ok (s, h').
Proof.
  apply (repr_terminates (H := plain_regex) recursive_grammar). by vm_compute.
Defined.

(** ** The patched repetition of [Xeger] *)

Section XegerRepeat.
Context {State : Type}.
Variable handle_state : State → Random → string * Random.

Lemma repeat_states_result times value result g :
  ∃ outs g',
    generations
      (λ g0, let '(s, g1) := handle_states handle_state value g0 in
             Ok (Some s, g1))
      times g outs g'
    ∧ repeat_states handle_state times value result g = (result ++ outs, g').
Proof.
  revert result g. induction times as [|times IH]; intros result g; simpl.
  - exists [], g. split; [constructor | by rewrite app_nil_r].
  - destruct (handle_states handle_state value g) as [s g1] eqn:Hs.
    destruct (IH (result ++ [s]) g1) as (outs & g' & Hgen & ->).
    exists (s :: outs), g'. split; [|by rewrite <- app_assoc].
    econstructor; [|done]. by rewrite Hs.
Qed.

(** X22: the patched repetition never repeats more often than
    [star_plus_limit]: when the range is not empty after the cut, the
    number of renderings is drawn between [start_range] and the smaller of
    [end_range] and [star_plus_limit], the renderings are made one after
    the other, and the result is their concatenation. *)
Theorem handle_repeat_is_capped
    (star_plus_limit start_range end_range : nat)
    (value : list State) (g : Random) :
  start_range ≤ end_range `min` star_plus_limit →
  ∃ times outs g',
    start_range ≤ times ≤ end_range `min` star_plus_limit
    ∧ generations
        (λ g0, let '(s, g1) := handle_states handle_state value g0 in
               Ok (Some s, g1))
        times (advance g) outs g'
    ∧ handle_repeat handle_state star_plus_limit start_range end_range value g
      = Some (String.concat "" outs, g').
Proof.
  intros Hrange. unfold handle_repeat.
  destruct (decide _) as [Hlt|_]; [lia|].
  pose proof (randint_range start_range (end_range `min` star_plus_limit) g Hrange)
    as Htimes.
  assert ((randint start_range (end_range `min` star_plus_limit) g).2 = advance g)
    as Hg by done.
  destruct (randint _ _ g) as [times g1]. simpl in Htimes, Hg. subst g1.
  destruct (repeat_states_result times value [] (advance g))
    as (outs & g' & Hgen & ->).
  exists times, outs, g'. split_and!; [lia | lia | done | done].
Qed.

(** X23: a repetition that asks for more than [star_plus_limit]
    repetitions at least (such as [a{7}] under the limit 5) is not cut
    down to the limit: the range is empty after the cut and [randint]
    raises [ValueError]. *)
Theorem handle_repeat_empty_range
    (star_plus_limit start_range end_range : nat)
    (value : list State) (g : Random) :
  star_plus_limit < start_range →
  handle_repeat handle_state star_plus_limit start_range end_range value g = None.
Proof.
  intros Hlimit. unfold handle_repeat. destruct (decide _) as [_|Hge]; [done|].
  lia.
Qed.

End XegerRepeat.

Lemma handle_repeat_is_capped_witness :
  ∃ times outs g',
    0 ≤ times ≤ 100 `min` REGEXP_REPEAT_LIMIT
    ∧ generations
        (λ g0, let '(s, g1) := handle_states (λ (c : ascii) g, (str c, g))
                                 ["a"; "b"]%char g0 in
               Ok (Some s, g1))
        times (advance (mkRandom (λ _, 9) 0)) outs g'
    ∧ handle_repeat (λ (c : ascii) g, (str c, g)) REGEXP_REPEAT_LIMIT 0 100
        ["a"; "b"]%char (mkRandom (λ _, 9) 0)
      = Some (String.concat "" outs, g').
Proof.
  apply (handle_repeat_is_capped (λ (c : ascii) g, (str c, g))
           REGEXP_REPEAT_LIMIT 0 100 ["a"; "b"]%char (mkRandom (λ _, 9) 0)).
  unfold REGEXP_REPEAT_LIMIT. simpl. lia.
Defined.

Lemma handle_repeat_empty_range_witness :
  handle_repeat (λ (c : ascii) g, (str c, g)) REGEXP_REPEAT_LIMIT 7 7
    ["a"]%char (mkRandom (λ _, 9) 0) = None.
Proof.
  apply (handle_repeat_empty_range (λ (c : ascii) g, (str c, g))
           REGEXP_REPEAT_LIMIT 7 7 ["a"]%char (mkRandom (λ _, 9) 0)).
  unfold REGEXP_REPEAT_LIMIT. lia.
Defined.

(** ** Tokenizer and introspector: escapes *)

Lemma lex_literal_body q s tail value symbol_name tokens :
  q ≠ backslash → char_in q s = false →
  lex_literal q (escape_literal s +:+ tail) value symbol_name tokens
  = lex_literal q tail (value +:+ s) symbol_name tokens.
Proof.
  intros Hq. revert value. induction s as [|c s IH]; intros value Hs.
  - by rewrite append_nil_r.
  - apply char_in_cons_false in Hs as [Hc Hs].
    assert (Ascii.eqb backslash q = false) as Hbq.
    { apply Ascii.eqb_neq. congruence. }
    assert (value +:+ String c s = (value +:+ str c) +:+ s) as ->
      by by rewrite append_assoc.
    cbn [escape_literal].
    destruct (Ascii.eqb c backslash) eqn:Hb;
      [|destruct (Ascii.eqb c newline) eqn:Hn;
        [|destruct (Ascii.eqb c tab) eqn:Ht]];
      rewrite !append_cons, lex_literal_cons.
    + apply Ascii.eqb_eq in Hb as ->. rewrite Hbq, Ascii.eqb_refl.
      change (Ascii.eqb backslash "n") with false.
      change (Ascii.eqb backslash "t") with false.
      cbv iota. by apply IH.
    + apply Ascii.eqb_eq in Hn as ->. rewrite Hbq, Ascii.eqb_refl.
      change (Ascii.eqb "n" "n") with true. cbv iota. by apply IH.
    + apply Ascii.eqb_eq in Ht as ->. rewrite Hbq, Ascii.eqb_refl.
      change (Ascii.eqb "n" "n") with true.
      change (Ascii.eqb "t" "n") with false.
      change (Ascii.eqb "t" "t") with true. cbv iota. by apply IH.
    + rewrite Hc, Hb. by apply IH.
Qed.

(** X24: inside a literal a backslash must be followed by [n], [t] or a
    backslash: followed by any other character, the quote that opened the
    literal included, it is the reported unrecognized-escape error quoting
    that character.  So a literal cannot contain its own quote. *)
Theorem literal_bad_escape (q e : ascii) (s rest : string)
    (symbol_name : option string) (tokens : list Token) :
  q = dquote ∨ q = squote →
  char_in q s = false →
  e ≠ "n"%char → e ≠ "t"%char → e ≠ backslash →
  lex_loop (String q (escape_literal s +:+ String backslash (String e rest)))
    symbol_name tokens
  = report_error_and_exit (msg_bad_escape e).
Proof.
  intros Hq Hs Hn Ht Hb. rewrite lex_loop_quote by done.
  assert (q ≠ backslash) as Hqb by (by destruct Hq as [-> | ->]).
  rewrite lex_literal_body, lex_literal_cons by done.
  apply Ascii.eqb_neq in Hn, Ht, Hb.
  assert (Ascii.eqb backslash q = false) as ->
    by (apply Ascii.eqb_neq; congruence).
  by rewrite Ascii.eqb_refl, Hn, Ht, Hb.
Qed.

Lemma literal_bad_escape_witness :
  lex_loop (String dquote (escape_literal "say "
                           +:+ String backslash (String dquote "hi")))
    None []
  = report_error_and_exit (msg_bad_escape dquote).
Proof.
  apply (literal_bad_escape dquote dquote "say " "hi" None []);
    [by left | reflexivity | discriminate | discriminate | discriminate].
Defined.

Lemma char_in_app c (s1 s2 : string) :
  char_in c (s1 +:+ s2) = char_in c s1 || char_in c s2.
Proof.
  induction s1 as [|d s1 IH]; [done|].
  rewrite append_cons. cbn [char_in]. by destruct (Ascii.eqb c d).
Qed.

Lemma escape_newlines_app (s1 s2 : string) :
  escape_newlines (s1 +:+ s2) = escape_newlines s1 +:+ escape_newlines s2.
Proof.
  induction s1 as [|c s1 IH]; [done|].
  rewrite append_cons. cbn [escape_newlines]. rewrite IH.
  by destruct (Ascii.eqb c newline).
Qed.

Lemma escape_newlines_no_newline (s : string) :
  char_in newline (escape_newlines s) = false.
Proof.
  induction s as [|c s IH]; [done|]. simpl.
  destruct (Ascii.eqb c newline) eqn:Hc; simpl.
  - done.
  - by rewrite (Ascii.eqb_sym newline c), Hc.
Qed.

Lemma escape_newlines_id (s : string) :
  char_in newline s = false → escape_newlines s = s.
Proof.
  induction s as [|c s IH]; [done|]. intros Hs.
  apply char_in_cons_false in Hs as [Hc Hs]. simpl. by rewrite Hc, IH.
Qed.

(** X25: [repr] of a [LiteralRule] prints the value between double quotes
    with every newline replaced by a backslash and an [n], and nothing
    else changed; it leaves the heap alone.  The replacement works
    character by character: it goes through concatenation, turns a newline
    into the two characters, and keeps every other character.  So the
    printed text is on one line, a value without a newline is printed as
    it is, and a value [pre], newline, [post] (no other newline) is printed
    as [pre], backslash, [n], [post]. *)
Theorem escape_newlines_one_line `{RegexLib}
    (depth : nat) (s : string) (h : Heap) :
  repr (S depth) (LiteralRule (Some s)) h
  = Ok ("LiteralRule(" +:+ quoted (escape_newlines s) +:+ ")", h)
  ∧ (∀ text h',
       repr (S depth) (LiteralRule (Some s)) h = Ok (text, h') →
       char_in newline text = false ∧ h' = h)
  ∧ escape_newlines "" = ""%string
  ∧ (∀ s1 s2,
       escape_newlines (s1 +:+ s2) = escape_newlines s1 +:+ escape_newlines s2)
  ∧ escape_newlines (str newline) = String backslash (String "n" "")
  ∧ (∀ c, c ≠ newline → escape_newlines (str c) = str c)
  ∧ char_in newline (escape_newlines s) = false
  ∧ (char_in newline s = false → escape_newlines s = s)
  ∧ (∀ pre post,
       s = pre +:+ String newline post →
       char_in newline pre = false → char_in newline post = false →
       repr (S depth) (LiteralRule (Some s)) h
       = Ok ("LiteralRule("
             +:+ quoted (pre +:+ String backslash (String "n" post))
             +:+ ")", h)).
Proof.
  split_and!.
  - reflexivity.
  - cbn [repr]. intros text h' [= <- <-]. split; [|done].
    cbn [char_in]. rewrite !char_in_app, escape_newlines_no_newline.
    reflexivity.
  - reflexivity.
  - apply escape_newlines_app.
  - reflexivity.
  - intros c Hc. apply Ascii.eqb_neq in Hc. unfold str. simpl. by rewrite Hc.
  - apply escape_newlines_no_newline.
  - apply escape_newlines_id.
  - intros pre post -> Hpre Hpost. cbn [repr].
    rewrite escape_newlines_app. cbn [escape_newlines].
    rewrite Ascii.eqb_refl.
    by rewrite (escape_newlines_id pre), (escape_newlines_id post).
Qed.

Lemma escape_newlines_one_line_witness :
  repr (H := plain_regex) 1
    (LiteralRule (Some ("two" +:+ String newline "lines"))) empty_heap
  = Ok ("LiteralRule("
        +:+ quoted ("two" +:+ String backslash (String "n" "lines"))
        +:+ ")", empty_heap)
  ∧ escape_newlines "no newline" = "no newline"%string.
Proof.
  split.
  - destruct (escape_newlines_one_line (H := plain_regex) 0
                ("two" +:+ String newline "lines") empty_heap)
      as (_ & _ & _ & _ & _ & _ & _ & _ & Hrepr).
    apply (Hrepr "two"%string "lines"%string); reflexivity.
  - destruct (escape_newlines_one_line (H := plain_regex) 0
                "no newline" empty_heap)
      as (_ & _ & _ & _ & _ & _ & _ & Hid & _).
    apply Hid. reflexivity.
Defined.
